(** * necoconeco: the sync client (clientsync.go)

    A shallow embedding of [processSnapshots], [postSnapshot],
    [processActions] and [main] of [src/clientsync.go], and the
    properties of the snapshot reconciliation and of the sync cycle.

    Go maps are finite maps ([gmap]) keyed by strings.  The order in
    which [range] visits a map is not specified by the language, so
    every loop over a map takes the order of the visit as an argument:
    a list of entries that is a permutation of the entries of the map.
    Calls to the collaborators (queue, file manager, HTTP transport,
    API client, logger) are recorded, with their results, in a trace. *)

From stdpp Require Import gmap strings list fin_maps.


(** ** Go's [range] over a map *)

(** One admissible visit of the entries of [m]: every entry once, in
    some order. *)
Record RangeOrder {V : Type} (m : gmap string V) : Type := MkRangeOrder {
  visit : list (string * V);
  visit_perm : visit ≡ₚ map_to_list m
}.
Arguments MkRangeOrder {V m} _ _.
Arguments visit {V m} _.
Arguments visit_perm {V m} _.

(** The visit in the order of the map's own enumeration. *)
Definition canonical_order {V : Type} (m : gmap string V) : RangeOrder m :=
  MkRangeOrder (map_to_list m) (reflexivity _).

(** The same visit backwards. *)
Definition reverse_order {V : Type} (m : gmap string V) : RangeOrder m :=
  MkRangeOrder (reverse (map_to_list m)) (reverse_Permutation _).

(** ** Data model (package utils) *)

(** Modelled from the spec: the constants [utils.StatusDeleted],
    [utils.ActionUpload], [utils.ActionDownload] and [utils.ActionMkdir]
    are declared in internal/utils, outside the source file; the spec
    names the status [deleted] and the actions [upload], [download] and
    [mkdir]. *)
Definition StatusDeleted : string := "deleted".
Definition ActionUpload : string := "upload".
Definition ActionDownload : string := "download".
Definition ActionMkdir : string := "mkdir".

(** Modelled from the spec: [utils.FileMetadata] is declared in
    internal/utils.  The source file only uses its [Status] field; the
    content metadata (size, modification time, checksum, ...) is kept as
    one field of an arbitrary type [Meta]. *)
Record FileMetadata (Meta : Type) : Type := MkFileMetadata {
  Status : string;
  Content : Meta
}.
Arguments MkFileMetadata {Meta} _ _.
Arguments Status {Meta} _.
Arguments Content {Meta} _.

(** [utils.DirectoryMetadata]: the snapshot, a map from normalized path
    to the record of the path. *)
Record DirectoryMetadata (Meta : Type) : Type := MkDirectoryMetadata {
  Files : gmap string (FileMetadata Meta)
}.
Arguments MkDirectoryMetadata {Meta} _.
Arguments Files {Meta} _.

Section Snapshots.
Context {Meta : Type}.

Implicit Types (last current : DirectoryMetadata Meta).
Implicit Types (final : gmap string (FileMetadata Meta)).
Implicit Types (kv : string * FileMetadata Meta).

(** [fileMetadata.Status = utils.StatusDeleted] on the loop's copy of
    the record. *)
Definition setDeleted (fileMetadata : FileMetadata Meta) : FileMetadata Meta :=
  MkFileMetadata StatusDeleted (Content fileMetadata).

(** Body of the first loop of [processSnapshots] (lines 132-139). *)
Definition lastBody current final kv : gmap string (FileMetadata Meta) :=
  match Files current !! kv.1 with
  | None => <[kv.1 := setDeleted kv.2]> final
  | Some _ => final
  end.

(** Body of the second loop of [processSnapshots] (lines 142-144). *)
Definition currentBody final kv : gmap string (FileMetadata Meta) :=
  <[kv.1 := kv.2]> final.

(** [processSnapshots] (lines 126-147), for a visit [ol] of
    [lastSnapshot.Files] and a visit [oc] of [currentSnapshot.Files]. *)
Definition processSnapshots last current
    (ol : RangeOrder (Files last)) (oc : RangeOrder (Files current))
    : DirectoryMetadata Meta :=
  MkDirectoryMetadata
    (foldl currentBody (foldl (lastBody current) ∅ (visit ol)) (visit oc)).

(** The paths for which line 135 logs that a tombstone is added, in
    the order of the visit. *)
Definition tombstonePaths current (ol : list (string * FileMetadata Meta))
    : list string :=
  (filter (λ kv, Files current !! kv.1 = None) ol).*1.

(** A path appears as deleted in a snapshot. *)
Definition isDeleted (s : DirectoryMetadata Meta) (path : string) : bool :=
  match Files s !! path with
  | Some fm => bool_decide (Status fm = StatusDeleted)
  | None => false
  end.

End Snapshots.

(** ** The action plan and the wire protocol (packages utils and api) *)

(** Go's [error] values, by their message. *)
Definition Error : Type := string.

(** A Go result pair [(value, err)] of which the code uses [value] only
    when [err == nil]. *)
Inductive result (A : Type) : Type :=
| Ok (a : A)
| Err (err : Error).
Arguments Ok {A} _.
Arguments Err {A} _.

(** [utils.FileActionMetadata]: the directive for one path. *)
Record FileActionMetadata : Type := MkFileActionMetadata {
  Action : string
}.

(** [utils.SyncActionMetadata]: the plan; its Go field [Files] is
    [PlanFiles] here, as [Files] is the snapshot's. *)
Record SyncActionMetadata : Type := MkSyncActionMetadata {
  PlanFiles : gmap string FileActionMetadata
}.

(** [api.PostSnapshotRequest]. *)
Record PostSnapshotRequest (Meta : Type) : Type := MkPostSnapshotRequest {
  ClientID : string;
  FinalSnapshot : DirectoryMetadata Meta
}.
Arguments MkPostSnapshotRequest {Meta} _ _.
Arguments ClientID {Meta} _.
Arguments FinalSnapshot {Meta} _.

(** [api.PostSnapshotResponse]: the plan is a pointer, [None] is nil. *)
Record PostSnapshotResponse : Type := MkPostSnapshotResponse {
  ResponsePlan : option SyncActionMetadata
}.

(** The result of [apiClient.Upload]. *)
Record UploadResponse : Type := MkUploadResponse {
  FileURL : string
}.

(** [http.Request], as far as the code builds it. *)
Record Request : Type := MkRequest {
  Method : string;
  URL : string;
  Body : string;
  Header : list (string * string)
}.

(** [req.Header.Set(key, value)]. *)
Definition Header_Set (req : Request) (key value : string) : Request :=
  MkRequest (Method req) (URL req) (Body req)
    ((key, value) :: filter (λ h, h.1 ≠ key) (Header req)).

(** The process-wide variables set by [main] (lines 23-31, 41-49);
    [apiClient] and [fileManager] are built from [serverURL] and
    [syncDirectory]. *)
Record Globals : Type := MkGlobals {
  clientID : string;
  address : string;
  queueName : string;
  serverURL : string;
  syncDirectory : string
}.

(** ** Collaborators and traces *)

(** The handles closed by the deferred calls of [main]. *)
Inductive Handle : Type :=
| HEnvironment
| HConnection
| HManagement.

(** One constructor per logging call of the source file. *)
Inductive LogMsg (Meta : Type) : Type :=
| LogNoEnv (err : Error)
| LogStarting
| LogConnectionFailed
| LogDeclareFailed (err : Error)
| LogPurgeError (err : Error)
| LogPurging (purgedAmount : Z)
| LogGettingLast
| LogError (err : Error)
| LogLastSnapshot (s : DirectoryMetadata Meta)
| LogGettingCurrent
| LogCurrentSnapshot (s : DirectoryMetadata Meta)
| LogLastExists
| LogLastMissing
| LogProcessingActions
| LogTombstone (path : string)
| LogPosting
| LogFinalSnapshot (s : DirectoryMetadata Meta)
| LogMarshalFailed (err : Error)
| LogRequestFailed (err : Error)
| LogDoFailed (err : Error)
| LogReadFailed (err : Error)
| LogUnmarshalFailed (err : Error)
| LogNoActions
| LogProcessing (action path : string)
| LogUploadFailed (path : string) (err : Error)
| LogUploaded (path fileURL : string)
| LogDownloadFailed (path : string) (err : Error)
| LogDownloaded (path : string)
| LogMkdirFailed (path : string) (err : Error)
| LogMkdirDone (path : string)
| LogUnknownAction (action path : string)
| LogCreatingSnapshot
| LogSnapshotFailed (err : Error)
| LogSnapshotCreated.
Arguments LogNoEnv {Meta} _.
Arguments LogStarting {Meta}.
Arguments LogConnectionFailed {Meta}.
Arguments LogDeclareFailed {Meta} _.
Arguments LogPurgeError {Meta} _.
Arguments LogPurging {Meta} _.
Arguments LogGettingLast {Meta}.
Arguments LogError {Meta} _.
Arguments LogLastSnapshot {Meta} _.
Arguments LogGettingCurrent {Meta}.
Arguments LogCurrentSnapshot {Meta} _.
Arguments LogLastExists {Meta}.
Arguments LogLastMissing {Meta}.
Arguments LogProcessingActions {Meta}.
Arguments LogTombstone {Meta} _.
Arguments LogPosting {Meta}.
Arguments LogFinalSnapshot {Meta} _.
Arguments LogMarshalFailed {Meta} _.
Arguments LogRequestFailed {Meta} _.
Arguments LogDoFailed {Meta} _.
Arguments LogReadFailed {Meta} _.
Arguments LogUnmarshalFailed {Meta} _.
Arguments LogNoActions {Meta}.
Arguments LogProcessing {Meta} _ _.
Arguments LogUploadFailed {Meta} _ _.
Arguments LogUploaded {Meta} _ _.
Arguments LogDownloadFailed {Meta} _ _.
Arguments LogDownloaded {Meta} _.
Arguments LogMkdirFailed {Meta} _ _.
Arguments LogMkdirDone {Meta} _.
Arguments LogUnknownAction {Meta} _ _.
Arguments LogCreatingSnapshot {Meta}.
Arguments LogSnapshotFailed {Meta} _.
Arguments LogSnapshotCreated {Meta}.

(** A call to a collaborator, with its arguments and what it returned. *)
Inductive Event (Meta Resp : Type) : Type :=
| EvLoadEnv (r : option Error)
| EvNewConnection (addr : string) (r : option Error)
| EvDeclareQueue (name : string) (isAutoDelete : bool) (r : option Error)
| EvPurgeQueue (name : string) (r : result Z)
| EvGetLastSnapshot (r : DirectoryMetadata Meta * bool * option Error)
| EvGetLocalMetadata (r : result (DirectoryMetadata Meta))
| EvMarshal (payload : PostSnapshotRequest Meta) (r : result string)
| EvNewRequest (method url body : string) (r : result Request)
| EvDo (req : Request) (r : result Resp)
| EvReadAll (r : result string)
| EvBodyClose
| EvUnmarshal (bodyBytes : string) (r : result PostSnapshotResponse)
| EvUpload (denormalizedPath client : string) (r : result UploadResponse)
| EvDownload (normalizedPath : string) (r : option Error)
| EvMkDir (denormalizedPath : string) (r : option Error)
| EvCreateDirectorySnapshot (r : option Error)
| EvClose (h : Handle)
| EvLog (m : LogMsg Meta).
Arguments EvLoadEnv {Meta Resp} _.
Arguments EvNewConnection {Meta Resp} _ _.
Arguments EvDeclareQueue {Meta Resp} _ _ _.
Arguments EvPurgeQueue {Meta Resp} _ _.
Arguments EvGetLastSnapshot {Meta Resp} _.
Arguments EvGetLocalMetadata {Meta Resp} _.
Arguments EvMarshal {Meta Resp} _ _.
Arguments EvNewRequest {Meta Resp} _ _ _ _.
Arguments EvDo {Meta Resp} _ _.
Arguments EvReadAll {Meta Resp} _.
Arguments EvBodyClose {Meta Resp}.
Arguments EvUnmarshal {Meta Resp} _ _.
Arguments EvUpload {Meta Resp} _ _ _.
Arguments EvDownload {Meta Resp} _ _.
Arguments EvMkDir {Meta Resp} _ _.
Arguments EvCreateDirectorySnapshot {Meta Resp} _.
Arguments EvClose {Meta Resp} _.
Arguments EvLog {Meta Resp} _.

(** The external collaborators of the cycle, as functions of the state
    [World] of everything outside the program (file system, server,
    queue, process environment).  The first block is the message queue
    client and the configuration, the second the file manager, the third
    Go's json and http packages, the fourth the API client and the
    utilities, the last the Go runtime's choice of a map's visit.

    Modelled from the spec: the file manager, the API client and the
    utilities are declared in internal/utils and internal/api; their
    signatures are the ones of the spec's external interfaces.  The
    snapshots they return are pointers in Go and values here: a nil
    snapshot that the code would dereference (lines 132 and 134) is not
    covered. *)
Record Collaborators (Meta World Resp : Type) : Type := MkCollaborators {
  godotenv_Load : World → option Error * World;
  os_Getenv : string → World → string;
  NewConnection : string → World → option Error * World;
  DeclareQueue : string → bool → World → option Error * World;
  PurgeQueue : string → World → result Z * World;
  Close : Handle → World → World;

  GetLastSnapshot :
    string → World → (DirectoryMetadata Meta * bool * option Error) * World;
  GetLocalMetadata : string → World → result (DirectoryMetadata Meta) * World;
  CreateDirectorySnapshot : string → World → option Error * World;

  json_Marshal : PostSnapshotRequest Meta → result string;
  http_NewRequest : string → string → string → result Request;
  http_Do : Request → World → result Resp * World;
  io_ReadAll : Resp → World → result string * World;
  Body_Close : Resp → World → World;
  json_Unmarshal : string → result PostSnapshotResponse;

  Upload : string → string → string → string → World → result UploadResponse * World;
  Download : string → string → string → World → option Error * World;
  RelToAbsConvert : string → string → string;
  MkDir : string → World → option Error * World;

  rangeFiles :
    World → ∀ m : gmap string (FileMetadata Meta), RangeOrder m;
  rangeActions :
    World → ∀ m : gmap string FileActionMetadata, RangeOrder m
}.
Arguments godotenv_Load {Meta World Resp} _ _.
Arguments os_Getenv {Meta World Resp} _ _ _.
Arguments NewConnection {Meta World Resp} _ _ _.
Arguments DeclareQueue {Meta World Resp} _ _ _ _.
Arguments PurgeQueue {Meta World Resp} _ _ _.
Arguments Close {Meta World Resp} _ _ _.
Arguments GetLastSnapshot {Meta World Resp} _ _ _.
Arguments GetLocalMetadata {Meta World Resp} _ _ _.
Arguments CreateDirectorySnapshot {Meta World Resp} _ _ _.
Arguments json_Marshal {Meta World Resp} _ _.
Arguments http_NewRequest {Meta World Resp} _ _ _ _.
Arguments http_Do {Meta World Resp} _ _ _.
Arguments io_ReadAll {Meta World Resp} _ _ _.
Arguments Body_Close {Meta World Resp} _ _ _.
Arguments json_Unmarshal {Meta World Resp} _ _.
Arguments Upload {Meta World Resp} _ _ _ _ _ _.
Arguments Download {Meta World Resp} _ _ _ _ _.
Arguments RelToAbsConvert {Meta World Resp} _ _ _.
Arguments MkDir {Meta World Resp} _ _ _.
Arguments rangeFiles {Meta World Resp} _ _ _.
Arguments rangeActions {Meta World Resp} _ _ _.

(** What a computation leaves: its value, the world after it, and the
    calls it made, oldest first. *)
Record Run (Meta World Resp A : Type) : Type := MkRun {
  value : A;
  final : World;
  trace : list (Event Meta Resp)
}.
Arguments MkRun {Meta World Resp A} _ _ _.
Arguments value {Meta World Resp A} _.
Arguments final {Meta World Resp A} _.
Arguments trace {Meta World Resp A} _.

(** ** The programs *)

Section Cycle.
Context {Meta World Resp : Type}.
Variable C : Collaborators Meta World Resp.

(** A computation threads the world and appends to the trace. *)
Definition M (A : Type) : Type := World → Run Meta World Resp A.

#[local] Instance M_ret : MRet M := λ A a w, MkRun a w [].

#[local] Instance M_bind : MBind M := λ A B f m w,
  let r1 := m w in
  let r2 := f (value r1) (final r1) in
  MkRun (value r2) (final r2) (trace r1 ++ trace r2).

(** A call that changes the world and returns [r], recorded as [ev r]. *)
Definition call {R : Type} (f : World → R * World)
    (ev : R → Event Meta Resp) : M R :=
  λ w, let r := f w in MkRun r.1 r.2 [ev r.1].

(** A call to a pure library function, recorded as well. *)
Definition compute {R : Type} (r : R) (ev : R → Event Meta Resp) : M R :=
  λ w, MkRun r w [ev r].

(** A call that returns nothing. *)
Definition perform (f : World → World) (ev : Event Meta Resp) : M unit :=
  λ w, MkRun () (f w) [ev].

(** [log.Printf], [log.Println] and [rmq.Error]. *)
Definition log (m : LogMsg Meta) : M unit :=
  λ w, MkRun () w [EvLog m].

(** [defer f()]: [f] runs when the rest of the function has returned. *)
Definition defer {A : Type} (f : M unit) (rest : M A) : M A :=
  a ← rest; f;; mret a.

(** A loop body run on each entry of a visit, in its order. *)
Fixpoint forEach {X : Type} (l : list X) (body : X → M unit) : M unit :=
  match l with
  | [] => mret ()
  | x :: l' => body x;; forEach l' body
  end.

(** [processSnapshots] as [main] runs it: the visits are the runtime's,
    and line 135 logs every tombstone it adds. *)
Definition processSnapshotsM (lastSnapshot currentSnapshot : DirectoryMetadata Meta)
    : M (DirectoryMetadata Meta) :=
  λ w,
    let ol := rangeFiles C w (Files lastSnapshot) in
    let oc := rangeFiles C w (Files currentSnapshot) in
    MkRun (processSnapshots lastSnapshot currentSnapshot ol oc) w
      ((λ path, EvLog (LogTombstone path)) <$>
         tombstonePaths currentSnapshot (visit ol)).

(** [postSnapshot] (lines 149-193).  The Go pair [(plan, err)] is
    [Ok plan] when [err] is nil. *)
Definition postSnapshot (g : Globals) (finalSnapshot : DirectoryMetadata Meta)
    : M (result (option SyncActionMetadata)) :=
  log LogPosting;;
  let postURL := serverURL g +:+ "/snapshot" in
  log (LogFinalSnapshot finalSnapshot);;
  let payload := MkPostSnapshotRequest (clientID g) finalSnapshot in
  jsonData ← compute (json_Marshal C payload) (EvMarshal payload);
  match jsonData with
  | Err err => log (LogMarshalFailed err);; mret (Err err)
  | Ok jsonData =>
    req ← compute (http_NewRequest C "POST" postURL jsonData)
                  (EvNewRequest "POST" postURL jsonData);
    match req with
    | Err err => log (LogRequestFailed err);; mret (Err err)
    | Ok req =>
      let req := Header_Set req "Content-Type" "application/json" in
      resp ← call (http_Do C req) (EvDo req);
      match resp with
      | Err err => log (LogDoFailed err);; mret (Err err)
      | Ok resp =>
        defer (perform (Body_Close C resp) EvBodyClose) (
          bodyBytes ← call (io_ReadAll C resp) EvReadAll;
          match bodyBytes with
          | Err err => log (LogReadFailed err);; mret (Err err)
          | Ok bodyBytes =>
            response ← compute (json_Unmarshal C bodyBytes) (EvUnmarshal bodyBytes);
            match response with
            | Err err => log (LogUnmarshalFailed err);; mret (Err err)
            | Ok response => mret (Ok (ResponsePlan response))
            end
          end)
      end
    end
  end.

(** The body of the loop of [processActions] (lines 203-238): the
    [switch] takes the first case that equals the action. *)
Definition directive (g : Globals) (kv : string * FileActionMetadata) : M unit :=
  let normalizedPath := kv.1 in
  let fileActionMetadata := kv.2 in
  log (LogProcessing (Action fileActionMetadata) normalizedPath);;
  if decide (Action fileActionMetadata = ActionUpload) then
    let denormalizedPath := RelToAbsConvert C (syncDirectory g) normalizedPath in
    r ← call (Upload C (serverURL g) (syncDirectory g) denormalizedPath (clientID g))
             (EvUpload denormalizedPath (clientID g));
    match r with
    | Err err => log (LogUploadFailed normalizedPath err)
    | Ok uploadResponse => log (LogUploaded normalizedPath (FileURL uploadResponse))
    end
  else if decide (Action fileActionMetadata = ActionDownload) then
    r ← call (Download C (serverURL g) (syncDirectory g) normalizedPath)
             (EvDownload normalizedPath);
    match r with
    | Some err => log (LogDownloadFailed normalizedPath err)
    | None => log (LogDownloaded normalizedPath)
    end
  else if decide (Action fileActionMetadata = ActionMkdir) then
    let denormalizedPath := RelToAbsConvert C (syncDirectory g) normalizedPath in
    r ← call (MkDir C denormalizedPath) (EvMkDir denormalizedPath);
    match r with
    | Some err => log (LogMkdirFailed normalizedPath err)
    | None => log (LogMkdirDone normalizedPath)
    end
  else
    log (LogUnknownAction (Action fileActionMetadata) normalizedPath).

(** Lines 241-248: the snapshot taken after the loop. *)
Definition refreshSnapshot (g : Globals) : M unit :=
  log LogCreatingSnapshot;;
  err ← call (CreateDirectorySnapshot C (syncDirectory g)) EvCreateDirectorySnapshot;
  match err with
  | Some err => log (LogSnapshotFailed err)
  | None => log LogSnapshotCreated
  end.

(** [processActions] (lines 195-249); [None] is the nil plan. *)
Definition processActions (g : Globals) (syncActionMetadata : option SyncActionMetadata)
    : M unit :=
  match syncActionMetadata with
  | None => log LogNoActions
  | Some plan =>
    (λ w, forEach (visit (rangeActions C w (PlanFiles plan))) (directive g) w);;
    refreshSnapshot g
  end.

(** Lines 41-45. *)
Definition readGlobals : M Globals :=
  λ w, MkRun (MkGlobals (os_Getenv C "CLIENT_ID" w)
                        (os_Getenv C "RABBITMQ_ADDRESS" w)
                        (os_Getenv C "RABBITMQ_QUEUE_NAME" w)
                        (os_Getenv C "SYNC_SERVER_URL" w)
                        (os_Getenv C "SYNC_DIRECTORY" w)) w [].

(** Lines 107-123, common to both branches of the [if]: a failed
    submission returns from [main], a plan goes to [processActions]. *)
Definition submitAndApply (g : Globals) (snapshot : DirectoryMetadata Meta) : M unit :=
  r ← postSnapshot g snapshot;
  match r with
  | Err err => log (LogError err)
  | Ok syncActionMetadata =>
    log LogProcessingActions;;
    processActions g syncActionMetadata
  end.

(** Lines 83-123: the cycle once the queue is declared and purged. *)
Definition syncCycle (g : Globals) : M unit :=
  log LogGettingLast;;
  r ← call (GetLastSnapshot C (syncDirectory g)) EvGetLastSnapshot;
  let lastSnapshot := r.1.1 in
  let exists_ := r.1.2 in
  match r.2 with Some err => log (LogError err) | None => mret () end;;
  log (LogLastSnapshot lastSnapshot);;
  log LogGettingCurrent;;
  cur ← call (GetLocalMetadata C (syncDirectory g)) EvGetLocalMetadata;
  match cur with
  | Err err => log (LogError err)
  | Ok currentSnapshot =>
    log (LogCurrentSnapshot currentSnapshot);;
    if exists_ : bool then
      log LogLastExists;;
      finalSnapshot ← processSnapshotsM lastSnapshot currentSnapshot;
      submitAndApply g finalSnapshot
    else
      log LogLastMissing;;
      submitAndApply g currentSnapshot
  end.

(** [main] (lines 33-124). *)
Definition main : M unit :=
  err ← call (godotenv_Load C) EvLoadEnv;
  match err with Some err => log (LogNoEnv err) | None => mret () end;;
  log LogStarting;;
  g ← readGlobals;
  defer (perform (Close C HEnvironment) (EvClose HEnvironment)) (
    err ← call (NewConnection C (address g)) (EvNewConnection (address g));
    match err with
    | Some _ => log LogConnectionFailed
    | None =>
      defer (perform (Close C HConnection) (EvClose HConnection)) (
      defer (perform (Close C HManagement) (EvClose HManagement)) (
        err ← call (DeclareQueue C (queueName g) false)
                   (EvDeclareQueue (queueName g) false);
        match err with
        | Some err => log (LogDeclareFailed err)
        | None =>
          purged ← call (PurgeQueue C (queueName g)) (EvPurgeQueue (queueName g));
          match purged with
          | Err err => log (LogPurgeError err)
          | Ok purgedAmount =>
            log (LogPurging purgedAmount);;
            syncCycle g
          end
        end))
    end).

End Cycle.

(** ** Reading a trace *)

Section Traces.
Context {Meta World Resp : Type}.
Variable C : Collaborators Meta World Resp.

Implicit Types (e : Event Meta Resp) (tr : list (Event Meta Resp)).

(** A call to the upload, download or mkdir capability. *)
Definition isDirectiveCall e : bool :=
  match e with
  | EvUpload _ _ _ | EvDownload _ _ | EvMkDir _ _ => true
  | _ => false
  end.

(** The capture of a new snapshot, persisted as the last snapshot. *)
Definition isSnapshotCapture e : bool :=
  match e with
  | EvCreateDirectorySnapshot _ => true
  | _ => false
  end.

(** A read of the last or of the current snapshot. *)
Definition isSnapshotRead e : bool :=
  match e with
  | EvGetLastSnapshot _ | EvGetLocalMetadata _ => true
  | _ => false
  end.

(** A step of the submission of a snapshot to the server. *)
Definition isSubmission e : bool :=
  match e with
  | EvMarshal _ _ | EvNewRequest _ _ _ _ | EvDo _ _ | EvReadAll _
  | EvUnmarshal _ _ => true
  | _ => false
  end.

(** A step of the submission that returned an error: serialization
    (marshal), transport (request, do, read) or decoding (unmarshal). *)
Definition isSubmissionFailure e : bool :=
  match e with
  | EvMarshal _ (Err _) | EvNewRequest _ _ _ (Err _) | EvDo _ (Err _)
  | EvReadAll (Err _) | EvUnmarshal _ (Err _) => true
  | _ => false
  end.

(** A purge of the queue. *)
Definition isPurge e : bool :=
  match e with
  | EvPurgeQueue _ _ => true
  | _ => false
  end.

(** Work of the cycle proper: what comes after the queue is declared
    and purged. *)
Definition isCycleWork e : bool :=
  isSnapshotRead e || isSubmission e || isDirectiveCall e || isSnapshotCapture e.

(** A logging call or the close of a handle or of a response body. *)
Definition isLogOrClose e : bool :=
  match e with
  | EvLog _ | EvClose _ | EvBodyClose => true
  | _ => false
  end.

(** The action is one of the three that the [switch] knows. *)
Definition knownAction (action : string) : bool :=
  bool_decide (action = ActionUpload) || bool_decide (action = ActionDownload)
  || bool_decide (action = ActionMkdir).

(** [e] is what the directive [d] for [path] does: the call to its
    capability, with the arguments the code passes, or, for an action
    that is not known, the log of the unknown action. *)
Definition attempts (g : Globals) (path : string) (d : FileActionMetadata) e : bool :=
  match e with
  | EvUpload p c _ =>
      bool_decide (Action d = ActionUpload
                   ∧ p = RelToAbsConvert C (syncDirectory g) path
                   ∧ c = clientID g)
  | EvDownload p _ => bool_decide (Action d = ActionDownload ∧ p = path)
  | EvMkDir p _ =>
      bool_decide (Action d = ActionMkdir
                   ∧ p = RelToAbsConvert C (syncDirectory g) path)
  | EvLog (LogUnknownAction a p) =>
      negb (knownAction (Action d)) && bool_decide (a = Action d ∧ p = path)
  | _ => false
  end.

(** [e] is the call of the directive [d] for [path], and it returned
    an error. *)
Definition failsAt (g : Globals) (path : string) (d : FileActionMetadata) e : bool :=
  attempts g path d e &&
  match e with
  | EvUpload _ _ (Err _) | EvDownload _ (Some _) | EvMkDir _ (Some _) => true
  | _ => false
  end.

(** What lines 241-248 leave in the trace when the capture returns [r]. *)
Definition refreshEvents (r : option Error) : list (Event Meta Resp) :=
  [EvLog LogCreatingSnapshot; EvCreateDirectorySnapshot r;
   EvLog (match r with
          | Some err => LogSnapshotFailed err
          | None => LogSnapshotCreated
          end)].

(** The run of [plan] isolates the events [seg] of the directive of
    [path]: they stand between the events of the directives visited
    before and after it, each directive of another path is attempted
    there, no snapshot is captured there, and the run ends with the
    capture of a snapshot. *)
Definition isolates (g : Globals) (plan : SyncActionMetadata) (w : World)
    (path : string) (seg : list (Event Meta Resp)) : Prop :=
  ∃ before after r,
    trace (processActions C g (Some plan) w)
    = before ++ seg ++ after ++ refreshEvents r
    ∧ Forall (λ e, isSnapshotCapture e = false) (before ++ after)
    ∧ ∀ path' d', path' ≠ path → PlanFiles plan !! path' = Some d' →
        ∃ e, e ∈ before ++ after ∧ attempts g path' d' e = true.

(** The cycle of trace [tr] aborts at the event [e]: after [e] it only
    logs and closes what is open, and no directive is attempted and no
    snapshot is captured (so that the persisted last snapshot, which only
    a capture writes, stays as it was) anywhere in [tr]. *)
Definition abortsAt (tr : list (Event Meta Resp)) e : Prop :=
  Forall (λ e', isDirectiveCall e' = false ∧ isSnapshotCapture e' = false) tr
  ∧ ∃ pre post, tr = pre ++ e :: post ∧ Forall (λ e', isLogOrClose e' = true) post.

End Traces.

(** ** Concrete inputs *)

Module Sample.

(** A present record: the status is anything but [StatusDeleted]. *)
Definition present (content : string) : FileMetadata string :=
  MkFileMetadata "exists" content.

Definition snapshotOf (l : list (string * FileMetadata string))
    : DirectoryMetadata string :=
  MkDirectoryMetadata (list_to_map l).

(** The example of the spec: [a.txt] is removed, [b.txt] modified and
    [c.txt] created since the last snapshot. *)
Definition last : DirectoryMetadata string :=
  snapshotOf [("a.txt", present "a1"); ("b.txt", present "b1")].
Definition current : DirectoryMetadata string :=
  snapshotOf [("b.txt", present "b2"); ("c.txt", present "c1")].
Definition merged : DirectoryMetadata string :=
  snapshotOf [("a.txt", MkFileMetadata StatusDeleted "a1");
              ("b.txt", present "b2"); ("c.txt", present "c1")].

(** A snapshot that already holds a deleted record, and no history. *)
Definition nothing : DirectoryMetadata string := snapshotOf [].
Definition withTombstone : DirectoryMetadata string :=
  snapshotOf [("gone.txt", MkFileMetadata StatusDeleted "g1")].

Definition planOf (l : list (string * string)) : SyncActionMetadata :=
  MkSyncActionMetadata (list_to_map (prod_map id MkFileActionMetadata <$> l)).

(** A plan with one directive of each kind, and one the executor does
    not know. *)
Definition plan : SyncActionMetadata :=
  planOf [("a.txt", "upload"); ("b.txt", "download"); ("docs", "mkdir");
          ("old.txt", "rename")].

Definition globals : Globals :=
  MkGlobals "client-1" "amqp://queue" "client-1-queue" "http://server" "/sync".

(** The outside world of the samples: the persisted last snapshot. *)
Definition Store : Type := option (DirectoryMetadata string).

(** Collaborators that answer as given: [declared] and [purged] for
    the queue, [lastErr] for the read of the last snapshot, [transport]
    for the HTTP exchange (the body of the response), [decoded] for the
    decoding of that body, [uploaded] for every upload.  The last
    snapshot is read from the store and exists when the store is not
    empty; the current snapshot is [current]; downloads and mkdir
    succeed; a capture stores [current]. *)
Definition collaborators (declared : option Error) (purged : result Z)
    (lastErr : option Error) (transport : result string)
    (decoded : result PostSnapshotResponse) (uploaded : result UploadResponse)
    : Collaborators string Store string :=
  {| godotenv_Load := λ w, (None, w);
     os_Getenv := λ name _,
       if decide (name = "CLIENT_ID") then clientID globals
       else if decide (name = "RABBITMQ_ADDRESS") then address globals
       else if decide (name = "RABBITMQ_QUEUE_NAME") then queueName globals
       else if decide (name = "SYNC_SERVER_URL") then serverURL globals
       else if decide (name = "SYNC_DIRECTORY") then syncDirectory globals
       else "";
     NewConnection := λ _ w, (None, w);
     DeclareQueue := λ _ _ w, (declared, w);
     PurgeQueue := λ _ w, (purged, w);
     Close := λ _ w, w;
     GetLastSnapshot := λ _ w,
       (match w with
        | Some s => (s, true, lastErr)
        | None => (nothing, false, lastErr)
        end, w);
     GetLocalMetadata := λ _ w, (Ok current, w);
     CreateDirectorySnapshot := λ _ _, (None, Some current);
     json_Marshal := λ _, Ok "{}";
     http_NewRequest := λ method url body, Ok (MkRequest method url body []);
     http_Do := λ _ w, (transport, w);
     io_ReadAll := λ resp w, (Ok resp, w);
     Body_Close := λ _ w, w;
     json_Unmarshal := λ _, decoded;
     Upload := λ _ _ _ _ w, (uploaded, w);
     Download := λ _ _ _ w, (None, w);
     RelToAbsConvert := λ root path, root +:+ "/" +:+ path;
     MkDir := λ _ w, (None, w);
     rangeFiles := λ _ m, canonical_order m;
     rangeActions := λ _ m, reverse_order m |}.

(** Every call succeeds and the server answers with [plan]. *)
Definition healthy : Collaborators string Store string :=
  collaborators None (Ok 0%Z) None (Ok "{}")
    (Ok (MkPostSnapshotResponse (Some plan)))
    (Ok (MkUploadResponse "http://server/files/a.txt")).

(** Every upload fails. *)
Definition uploadsFail : Collaborators string Store string :=
  collaborators None (Ok 0%Z) None (Ok "{}")
    (Ok (MkPostSnapshotResponse (Some plan))) (Err "upload refused").

(** The purge of the queue fails. *)
Definition purgeFails : Collaborators string Store string :=
  collaborators None (Err "purge: connection lost") None (Ok "{}")
    (Ok (MkPostSnapshotResponse (Some plan)))
    (Ok (MkUploadResponse "http://server/files/a.txt")).

(** The declaration of the queue fails. *)
Definition declareFails : Collaborators string Store string :=
  collaborators (Some "declare: access refused") (Ok 0%Z) None (Ok "{}")
    (Ok (MkPostSnapshotResponse (Some plan)))
    (Ok (MkUploadResponse "http://server/files/a.txt")).

(** The server cannot be reached. *)
Definition serverDown : Collaborators string Store string :=
  collaborators None (Ok 0%Z) None (Err "connection refused")
    (Ok (MkPostSnapshotResponse (Some plan)))
    (Ok (MkUploadResponse "http://server/files/a.txt")).

(** The read of the last snapshot reports an error. *)
Definition lastUnreadable : Collaborators string Store string :=
  collaborators None (Ok 0%Z) (Some "last snapshot: bad checksum") (Ok "{}")
    (Ok (MkPostSnapshotResponse None))
    (Ok (MkUploadResponse "http://server/files/a.txt")).

End Sample.

(** ** More readings of a trace *)

Section Readings.
Context {Meta Resp : Type}.

Implicit Types (e : Event Meta Resp).

(** The error of a step of the submission that failed. *)
Definition submissionError e : option Error :=
  match e with
  | EvMarshal _ (Err err) | EvNewRequest _ _ _ (Err err) | EvDo _ (Err err)
  | EvReadAll (Err err) | EvUnmarshal _ (Err err) => Some err
  | _ => None
  end.

(** The close of one of the handles of [main]. *)
Definition isHandleClose e : bool :=
  match e with
  | EvClose _ => true
  | _ => false
  end.

(** A directive whose action the [switch] knows. *)
Definition isKnownDirective (kv : string * FileActionMetadata) : bool :=
  knownAction (Action kv.2).

End Readings.

(** ** Collaborators that fail early *)

Module Faults.

(** [C], but the load of the environment file, the connection to the
    queue and the read of the current snapshot answer as given. *)
Definition override {Meta World Resp : Type} (C : Collaborators Meta World Resp)
    (loaded connected : option Error) (local : result (DirectoryMetadata Meta))
    : Collaborators Meta World Resp :=
  {| godotenv_Load := λ w, (loaded, w);
     os_Getenv := os_Getenv C;
     NewConnection := λ _ w, (connected, w);
     DeclareQueue := DeclareQueue C;
     PurgeQueue := PurgeQueue C;
     Close := Close C;
     GetLastSnapshot := GetLastSnapshot C;
     GetLocalMetadata := λ _ w, (local, w);
     CreateDirectorySnapshot := CreateDirectorySnapshot C;
     json_Marshal := json_Marshal C;
     http_NewRequest := http_NewRequest C;
     http_Do := http_Do C;
     io_ReadAll := io_ReadAll C;
     Body_Close := Body_Close C;
     json_Unmarshal := json_Unmarshal C;
     Upload := Upload C;
     Download := Download C;
     RelToAbsConvert := RelToAbsConvert C;
     MkDir := MkDir C;
     rangeFiles := rangeFiles C;
     rangeActions := rangeActions C |}.

(** No environment file. *)
Definition noEnvFile : Collaborators string Sample.Store string :=
  override Sample.healthy (Some "open .env: no such file") None (Ok Sample.current).

(** The queue cannot be reached. *)
Definition queueDown : Collaborators string Sample.Store string :=
  override Sample.healthy None (Some "dial: connection refused") (Ok Sample.current).

(** The sync directory cannot be read. *)
Definition unreadableDirectory : Collaborators string Sample.Store string :=
  override Sample.healthy None None (Err "walk: permission denied").

(** A plan without directives. *)
Definition emptyPlan : SyncActionMetadata := MkSyncActionMetadata ∅.

(** A last snapshot all of whose paths are still there. *)
Definition older : DirectoryMetadata string :=
  Sample.snapshotOf [("b.txt", Sample.present "b1")].

End Faults.

(** * Properties *)

(** ** The diff engine: [processSnapshots] *)

Section SnapshotFacts.
Context {Meta : Type}.

Implicit Types (last current : DirectoryMetadata Meta).
Implicit Types (l : list (string * FileMetadata Meta)).
Implicit Types (acc : gmap string (FileMetadata Meta)).

(** The first loop: a path of the visit that [current] does not have
    gets the deleted copy of its last record; the later of two entries
    of one path would win. *)
Lemma foldl_lastBody_lookup current l acc path :
  foldl (lastBody current) acc l !! path =
    match Files current !! path with
    | Some _ => acc !! path
    | None =>
        match (list_to_map (reverse l) : gmap string (FileMetadata Meta)) !! path with
        | Some fm => Some (setDeleted fm)
        | None => acc !! path
        end
    end.
Proof.
  revert acc. induction l as [|[k v] l IH] using rev_ind; intros acc.
  - simpl. by destruct (Files current !! path).
  - rewrite foldl_app, reverse_app. simpl. unfold lastBody at 1. simpl.
    destruct (decide (k = path)) as [->|Hne].
    + rewrite lookup_insert_eq.
      destruct (Files current !! path) eqn:Hc.
      * by rewrite IH.
      * by rewrite lookup_insert_eq.
    + rewrite (lookup_insert_ne _ k path) by done.
      destruct (Files current !! k) eqn:Hk.
      * by rewrite IH.
      * rewrite lookup_insert_ne by done. by rewrite IH.
Qed.

(** The second loop: every entry of the visit is written as it is. *)
Lemma foldl_currentBody_lookup l acc path :
  foldl currentBody acc l !! path =
    match (list_to_map (reverse l) : gmap string (FileMetadata Meta)) !! path with
    | Some fm => Some fm
    | None => acc !! path
    end.
Proof.
  revert acc. induction l as [|[k v] l IH] using rev_ind; intros acc.
  - done.
  - rewrite foldl_app, reverse_app. simpl. unfold currentBody at 1. simpl.
    destruct (decide (k = path)) as [->|Hne].
    + by rewrite !lookup_insert_eq.
    + rewrite !lookup_insert_ne by done. by rewrite IH.
Qed.

(** Whatever the order of the visit, its entries are the map's. *)
Lemma range_list_to_map {V : Type} (m : gmap string V) (o : RangeOrder m) :
  list_to_map (reverse (visit o)) = m.
Proof.
  rewrite <- (list_to_map_to_list m) at 2.
  apply list_to_map_proper.
  - rewrite reverse_Permutation, (visit_perm o). apply NoDup_fst_map_to_list.
  - rewrite reverse_Permutation. apply visit_perm.
Qed.

(** The record of each path in the merged snapshot. *)
Lemma processSnapshots_lookup last current ol oc path :
  Files (processSnapshots last current ol oc) !! path =
    match Files current !! path with
    | Some fm => Some fm
    | None => setDeleted <$> Files last !! path
    end.
Proof.
  unfold processSnapshots. simpl.
  rewrite foldl_currentBody_lookup, foldl_lastBody_lookup, !range_list_to_map.
  destruct (Files current !! path); [done|].
  rewrite lookup_empty. by destruct (Files last !! path).
Qed.

(** The result does not depend on the order of the two visits. *)
Lemma processSnapshots_order last current ol oc ol' oc' :
  processSnapshots last current ol oc = processSnapshots last current ol' oc'.
Proof.
  unfold processSnapshots. f_equal. apply map_eq. intros path.
  exact (eq_trans (processSnapshots_lookup last current ol oc path)
           (eq_sym (processSnapshots_lookup last current ol' oc' path))).
Qed.

(** C1, as amended.  For every pair of snapshots and every order of
    the visits, a path has status deleted in the merged snapshot if and
    only if it is a key of [last] and not a key of [current], or
    [current]'s own record for it has status deleted (such a record is
    copied as it is, also for a path that [last] does not have). *)
Theorem tombstone_correctness last current ol oc path :
  isDeleted (processSnapshots last current ol oc) path = true ↔
    (path ∈ dom (Files last) ∧ path ∉ dom (Files current))
    ∨ isDeleted current path = true.
Proof.
  unfold isDeleted at 1. rewrite processSnapshots_lookup.
  rewrite !elem_of_dom, <- eq_None_not_Some. unfold isDeleted.
  destruct (Files current !! path) as [fc|] eqn:Hc.
  - split; [by right|]. intros [[_ ?]|?]; done.
  - destruct (Files last !! path) as [fl|] eqn:Hl; simpl.
    + split; [left; eauto|]. done.
    + split; [done|]. intros [[[? ?] _]|?]; done.
Qed.

(** C2.  A path that is a key of both snapshots has, in the merged
    snapshot, exactly [current]'s record: its status and its content,
    not [last]'s record and not the deleted copy of it. *)
Theorem override_precedence last current ol oc path :
  path ∈ dom (Files last) → path ∈ dom (Files current) →
  Files (processSnapshots last current ol oc) !! path = Files current !! path.
Proof.
  intros _ [fc Hc]%elem_of_dom. by rewrite processSnapshots_lookup, Hc.
Qed.

(** C3.  The keys of the merged snapshot are the union of the keys of
    [last] and of [current]; the merged snapshot is a map, so no key
    occurs twice. *)
Theorem union_completeness last current ol oc :
  dom (Files (processSnapshots last current ol oc))
  = dom (Files last) ∪ dom (Files current).
Proof.
  apply set_eq. intros path.
  rewrite elem_of_union, !elem_of_dom, processSnapshots_lookup.
  destruct (Files current !! path) as [fc|].
  - split; [right|]; eauto.
  - rewrite fmap_is_Some. split; [by left|]. by intros [?|[? ?]].
Qed.

End SnapshotFacts.

(** The example of the spec, for two different orders of the visits. *)
Example merged_example :
  processSnapshots Sample.last Sample.current
    (canonical_order _) (reverse_order _) = Sample.merged.
Proof. vm_compute. reflexivity. Qed.

(** C1, as stated, fails: with no history at all, a record of [current]
    that has status deleted appears as deleted in the merged snapshot,
    and its path is not a key of [last]. *)
Lemma tombstone_without_history :
  ¬ (isDeleted (processSnapshots Sample.nothing Sample.withTombstone
                  (canonical_order _) (canonical_order _)) "gone.txt" = true
     ↔ ("gone.txt" ∈ dom (Files Sample.nothing)
        ∧ "gone.txt" ∉ dom (Files Sample.withTombstone))).
Proof.
  intros [Hdel _].
  destruct Hdel as [Hin _]; [by vm_compute|].
  apply elem_of_dom in Hin. destruct Hin as [fm Hfm]. by vm_compute in Hfm.
Qed.

Lemma override_precedence_witness :
  "b.txt" ∈ dom (Files Sample.last) ∧ "b.txt" ∈ dom (Files Sample.current)
  ∧ Files (processSnapshots Sample.last Sample.current
             (canonical_order _) (reverse_order _)) !! "b.txt"
    = Files Sample.current !! "b.txt".
Proof.
  assert (Hl : "b.txt" ∈ dom (Files Sample.last)).
  { apply elem_of_dom. exists (Sample.present "b1"). vm_compute. reflexivity. }
  assert (Hc : "b.txt" ∈ dom (Files Sample.current)).
  { apply elem_of_dom. exists (Sample.present "b2"). vm_compute. reflexivity. }
  split; [exact Hl|]. split; [exact Hc|].
  exact (override_precedence _ _ _ _ "b.txt" Hl Hc).
Defined.

(** ** The executor: [processActions] *)

Section ExecutorFacts.
Context {Meta World Resp : Type}.
Variable C : Collaborators Meta World Resp.

Implicit Types (e : Event Meta Resp) (w : World) (g : Globals).
Implicit Types (kv : string * FileActionMetadata).
Implicit Types (body : string * FileActionMetadata → M (Meta:=Meta) (World:=World) (Resp:=Resp) ()).

(** A loop over [l1 ++ l2] is the loop over [l1] followed by the loop
    over [l2] in the world the first one leaves. *)
Lemma forEach_app_trace l1 l2 body w :
  trace (forEach (l1 ++ l2) body w)
  = trace (forEach l1 body w) ++ trace (forEach l2 body (final (forEach l1 body w))).
Proof.
  revert w. induction l1 as [|x l1 IH]; intros w; [done|].
  simpl. by rewrite IH, app_assoc.
Qed.

Lemma forEach_cons_trace x l body w :
  trace (forEach (x :: l) body w)
  = trace (body x w) ++ trace (forEach l body (final (body x w))).
Proof. reflexivity. Qed.

Lemma forEach_app_final l1 l2 body w :
  final (forEach (l1 ++ l2) body w)
  = final (forEach l2 body (final (forEach l1 body w))).
Proof.
  revert w. induction l1 as [|x l1 IH]; intros w; [done|]. apply IH.
Qed.

Lemma forEach_Forall (P : Event Meta Resp → Prop) l body w :
  (∀ kv w', Forall P (trace (body kv w'))) →
  Forall P (trace (forEach l body w)).
Proof.
  intros Hbody. revert w. induction l as [|x l IH]; intros w; simpl.
  - constructor.
  - apply Forall_app. split; [apply Hbody | apply IH].
Qed.

(** A directive only logs and calls its capability: it never captures a
    snapshot. *)
Lemma directive_events g kv w :
  Forall (λ e, isDirectiveCall e || isLogOrClose e = true)
         (trace (directive C g kv w)).
Proof.
  unfold directive. repeat case_decide; simpl.
  - destruct (Upload _ _ _ _ _ _).1; repeat constructor.
  - destruct (Download _ _ _ _ _).1; repeat constructor.
  - destruct (MkDir _ _ _).1; repeat constructor.
  - repeat constructor.
Qed.

(** Every directive is attempted: its capability is called with the
    arguments of the code, or its unknown action is logged. *)
Lemma directive_attempts g path d w :
  ∃ e, e ∈ trace (directive C g (path, d) w) ∧ attempts C g path d e = true.
Proof.
  unfold directive. simpl. repeat case_decide; simpl.
  - eexists (EvUpload _ _ _). split; [apply elem_of_cons; right; apply elem_of_cons; left; reflexivity|]. simpl. by apply bool_decide_eq_true.
  - eexists (EvDownload _ _). split; [apply elem_of_cons; right; apply elem_of_cons; left; reflexivity|]. simpl. by apply bool_decide_eq_true.
  - eexists (EvMkDir _ _). split; [apply elem_of_cons; right; apply elem_of_cons; left; reflexivity|]. simpl. by apply bool_decide_eq_true.
  - eexists (EvLog (LogUnknownAction _ _)). split; [apply elem_of_cons; right; apply elem_of_cons; left; reflexivity|]. simpl.
    apply andb_true_iff. split; [|by apply bool_decide_eq_true].
    unfold knownAction. by rewrite !bool_decide_eq_false_2.
Qed.

(** A directive whose action is not known logs twice and calls nothing:
    the world is as before. *)
Lemma directive_unknown g path d w :
  knownAction (Action d) = false →
  directive C g (path, d) w
  = MkRun () w [EvLog (LogProcessing (Action d) path);
                EvLog (LogUnknownAction (Action d) path)].
Proof.
  unfold knownAction. rewrite !orb_false_iff, !bool_decide_eq_false.
  intros [[? ?] ?]. unfold directive. simpl. by repeat case_decide.
Qed.

Lemma forEach_attempts g (l : list (string * FileActionMetadata)) w path d :
  (path, d) ∈ l →
  ∃ e, e ∈ trace (forEach l (directive C g) w) ∧ attempts C g path d e = true.
Proof.
  intros (l1 & l2 & ->)%list_elem_of_split.
  rewrite forEach_app_trace, forEach_cons_trace.
  destruct (directive_attempts g path d (final (forEach l1 (directive C g) w)))
    as (e & He & Hatt).
  exists e. split; [|done]. rewrite !elem_of_app. auto.
Qed.

(** The snapshot taken after the loop. *)
Lemma refreshSnapshot_trace g w :
  ∃ r, trace (refreshSnapshot C g w) = refreshEvents r.
Proof.
  unfold refreshSnapshot, refreshEvents. simpl.
  exists (CreateDirectorySnapshot C (syncDirectory g) w).1.
  by destruct (CreateDirectorySnapshot _ _ _).1.
Qed.

(** The run of a plan isolates each of its directives, whatever the
    directives return. *)
Lemma processActions_isolation g plan w path d :
  PlanFiles plan !! path = Some d →
  ∃ wp, isolates C g plan w path (trace (directive C g (path, d) wp)).
Proof.
  intros Hin.
  set (o := rangeActions C w (PlanFiles plan)).
  assert (Hperm := visit_perm o).
  assert (Hl : (path, d) ∈ visit o).
  { rewrite Hperm. by apply elem_of_map_to_list. }
  apply list_elem_of_split in Hl as (l1 & l2 & Hl).
  set (w1 := final (forEach l1 (directive C g) w)).
  set (w2 := final (directive C g (path, d) w1)).
  set (w3 := final (forEach l2 (directive C g) w2)).
  destruct (refreshSnapshot_trace g w3) as [r Hr].
  exists w1, (trace (forEach l1 (directive C g) w)),
         (trace (forEach l2 (directive C g) w2)), r.
  split; [|split].
  - change (trace (processActions C g (Some plan) w))
      with (trace (forEach (visit o) (directive C g) w)
            ++ trace (refreshSnapshot C g
                        (final (forEach (visit o) (directive C g) w)))).
    rewrite Hl, forEach_app_trace, forEach_app_final, forEach_cons_trace.
    fold w1. fold w2.
    rewrite <- !app_assoc. do 3 f_equal. exact Hr.
  - apply Forall_app. split; apply forEach_Forall; intros kv w';
      (eapply Forall_impl; [apply directive_events|]);
      intros e He; by destruct e.
  - intros path' d' Hne Hin'.
    assert (Hl' : (path', d') ∈ visit o).
    { rewrite Hperm. by apply elem_of_map_to_list. }
    rewrite Hl, elem_of_app, elem_of_cons in Hl'.
    destruct Hl' as [Hl'|[Heq|Hl']]; [|congruence|].
    + destruct (forEach_attempts g l1 w path' d' Hl') as (e & He & Hatt).
      exists e. rewrite elem_of_app. auto.
    + destruct (forEach_attempts g l2 w2 path' d' Hl') as (e & He & Hatt).
      exists e. rewrite elem_of_app. auto.
Qed.

(** Events of a run of [processActions]: logs, capability calls and the
    capture. *)
Lemma processActions_events g plan w :
  Forall (λ e, isDirectiveCall e || isSnapshotCapture e || isLogOrClose e = true)
         (trace (processActions C g plan w)).
Proof.
  destruct plan as [plan|]; [|by repeat constructor].
  change (trace (processActions C g (Some plan) w))
    with (trace (forEach (visit (rangeActions C w (PlanFiles plan)))
                   (directive C g) w)
          ++ trace (refreshSnapshot C g
                      (final (forEach (visit (rangeActions C w (PlanFiles plan)))
                                (directive C g) w)))).
  apply Forall_app. split.
  - apply forEach_Forall. intros kv w'.
    eapply Forall_impl; [apply directive_events|].
    intros e He. by destruct e.
  - destruct (refreshSnapshot_trace g
                (final (forEach (visit (rangeActions C w (PlanFiles plan)))
                          (directive C g) w))) as [r ->].
    by repeat constructor.
Qed.

(** C7.  When the directive of [path] fails (its upload, download or
    mkdir call returns an error), the run of the plan still isolates it:
    the directive of every other path is attempted, before or after it,
    and the snapshot is captured after all of them.  The same holds when
    the call succeeds. *)
Theorem partial_failure_isolation g plan w path d e :
  PlanFiles plan !! path = Some d →
  e ∈ trace (processActions C g (Some plan) w) →
  failsAt C g path d e = true →
  (∃ wp, isolates C g plan w path (trace (directive C g (path, d) wp)))
  ∧ ∃ pre post r,
      trace (processActions C g (Some plan) w) = pre ++ e :: post
      ∧ EvCreateDirectorySnapshot r ∈ post.
Proof.
  intros Hin He Hfail.
  destruct (processActions_isolation g plan w path d Hin) as [wp Hiso].
  split; [by exists wp|].
  destruct Hiso as (before & after & r & Htr & _ & _).
  rewrite !app_assoc in Htr. rewrite Htr, elem_of_app in He.
  destruct He as [He|He].
  - apply list_elem_of_split in He as (pre & post & Hsplit).
    exists pre, (post ++ refreshEvents r), r. split.
    + by rewrite Htr, Hsplit, <- app_assoc.
    + rewrite elem_of_app. right. unfold refreshEvents.
      apply elem_of_cons. right. apply elem_of_cons. by left.
  - unfold refreshEvents in He. rewrite !elem_of_cons, elem_of_nil in He.
    unfold failsAt in Hfail.
    destruct He as [->|[->|[->|[]]]]; [| |destruct r]; simpl in Hfail; discriminate.
Qed.

(** C9.  A directive of the plan whose action is none of upload,
    download and mkdir leaves two log entries, the second the
    unknown-action entry of its path, and no call; the directives of all
    other paths are attempted and the snapshot is captured at the end. *)
Theorem unknown_action_skipped g plan w path d :
  PlanFiles plan !! path = Some d →
  knownAction (Action d) = false →
  isolates C g plan w path
    [EvLog (LogProcessing (Action d) path);
     EvLog (LogUnknownAction (Action d) path)].
Proof.
  intros Hin Hunknown.
  destruct (processActions_isolation g plan w path d Hin) as [wp Hiso].
  by rewrite directive_unknown in Hiso.
Qed.

End ExecutorFacts.

(** ** The protocol client: [postSnapshot] *)

Section SubmissionFacts.
Context {Meta World Resp : Type}.
Variable C : Collaborators Meta World Resp.

Implicit Types (e : Event Meta Resp) (w : World) (g : Globals).
Implicit Types (s : DirectoryMetadata Meta).

#[local] Ltac case_result :=
  match goal with
  | |- context [match ?x with Ok _ => _ | Err _ => _ end] =>
      lazymatch x with
      | value _ => fail
      | _ => destruct x eqn:?; simpl
      end
  end.

(** A submission marshals the snapshot it is given, once, before
    anything else than two log entries. *)
Lemma postSnapshot_payload g s w :
  ∃ r rest,
    trace (postSnapshot C g s w)
    = EvLog LogPosting :: EvLog (LogFinalSnapshot s)
      :: EvMarshal (MkPostSnapshotRequest (clientID g) s) r :: rest
    ∧ ∀ payload r', EvMarshal payload r' ∉ rest.
Proof.
  unfold postSnapshot, defer. simpl. do 2 eexists. split; [reflexivity|].
  intros payload r'.
  repeat case_result; intros H;
    repeat (apply elem_of_cons in H as [H|H]; [discriminate|]);
    by apply elem_of_nil in H.
Qed.

(** The events of a submission. *)
Lemma postSnapshot_events g s w :
  Forall (λ e, isSubmission e || isLogOrClose e = true)
         (trace (postSnapshot C g s w)).
Proof.
  unfold postSnapshot, defer. simpl.
  repeat case_result; by repeat constructor.
Qed.

(** A submission that returns a plan has no failed step; one that
    returns an error has exactly one, and only logs and closes the
    response body after it. *)
Lemma postSnapshot_outcome g s w :
  match value (postSnapshot C g s w) with
  | Ok _ =>
      Forall (λ e, isSubmissionFailure e = false) (trace (postSnapshot C g s w))
  | Err _ =>
      ∃ pre f post,
        trace (postSnapshot C g s w) = pre ++ f :: post
        ∧ isSubmissionFailure f = true
        ∧ Forall (λ e, isSubmissionFailure e = false) pre
        ∧ Forall (λ e, isLogOrClose e = true) post
  end.
Proof.
  unfold postSnapshot, defer. simpl.
  repeat case_result; try by repeat constructor.
  all: first
    [ by eexists [_; _], _, _; repeat constructor
    | by eexists [_; _; _], _, _; repeat constructor
    | by eexists [_; _; _; _], _, _; repeat constructor
    | by eexists [_; _; _; _; _], _, _; repeat constructor
    | by eexists [_; _; _; _; _; _], _, _; repeat constructor ].
Qed.

(** A response that was decoded is what the submission returns. *)
Lemma postSnapshot_decoded g s w bodyBytes response :
  EvUnmarshal bodyBytes (Ok response) ∈ trace (postSnapshot C g s w) →
  value (postSnapshot C g s w) = Ok (ResponsePlan response).
Proof.
  unfold postSnapshot, defer. simpl.
  repeat case_result; intros H;
    repeat (apply elem_of_cons in H as [H|H]; [try discriminate|]);
    try (by apply elem_of_nil in H).
  by injection H as _ ->.
Qed.

End SubmissionFacts.

(** ** The cycle: [main] *)

Section CycleFacts.
Context {Meta World Resp : Type}.
Variable C : Collaborators Meta World Resp.

Implicit Types (e : Event Meta Resp) (w : World) (g : Globals).
Implicit Types (s : DirectoryMetadata Meta).

#[local] Opaque postSnapshot processActions.

(** Lines 107-123: the submission, then either the log of its error or
    the run of the plan. *)
Lemma submitAndApply_trace g s w :
  trace (submitAndApply C g s w)
  = trace (postSnapshot C g s w)
    ++ match value (postSnapshot C g s w) with
       | Err err => [EvLog (LogError err)]
       | Ok plan =>
           EvLog LogProcessingActions
           :: trace (processActions C g plan (final (postSnapshot C g s w)))
       end.
Proof.
  unfold submitAndApply. simpl.
  by destruct (value (postSnapshot C g s w)).
Qed.

#[local] Opaque submitAndApply.

(** Lines 83-123: the two reads, then either the log of the error of
    the second or the submission of the diff (when the last snapshot
    exists) or of the current snapshot. *)
Lemma syncCycle_trace g w :
  ∃ ls ex oerr c w2,
    trace (syncCycle C g w)
    = [EvLog LogGettingLast; EvGetLastSnapshot (ls, ex, oerr)]
      ++ from_option (λ err, [EvLog (LogError err)]) [] oerr
      ++ [EvLog (LogLastSnapshot ls); EvLog LogGettingCurrent;
          EvGetLocalMetadata c]
      ++ match c with
         | Err err => [EvLog (LogError err)]
         | Ok cur =>
             let ol := rangeFiles C w2 (Files ls) in
             let oc := rangeFiles C w2 (Files cur) in
             EvLog (LogCurrentSnapshot cur)
             :: (if ex
                 then EvLog LogLastExists
                      :: ((λ path, EvLog (LogTombstone path)) <$>
                            tombstonePaths cur (visit ol))
                 else [EvLog LogLastMissing])
             ++ trace (submitAndApply C g
                         (if ex then processSnapshots ls cur ol oc else cur) w2)
         end.
Proof.
  unfold syncCycle.
  destruct (GetLastSnapshot C (syncDirectory g) w) as [[[ls ex] oerr] w1] eqn:Hlast.
  destruct (GetLocalMetadata C (syncDirectory g) w1) as [c w2] eqn:Hcur.
  exists ls, ex, oerr, c, w2.
  simpl. rewrite Hlast. simpl.
  destruct oerr; simpl; rewrite Hcur; simpl; destruct c; simpl; try done.
  all: destruct ex; simpl; by rewrite ?app_nil_r.
Qed.

#[local] Opaque syncCycle.

(** Lines 33-81 and the deferred closes: [main] stops at a failed
    connection, declaration or purge, and runs the cycle otherwise. *)
Lemma main_trace w :
  ∃ renv g w',
    let boot := EvLoadEnv renv
                :: from_option (λ err, [EvLog (LogNoEnv err)]) [] renv
                ++ [EvLog LogStarting] in
    (∃ err,
       trace (main C w)
       = boot ++ [EvNewConnection (address g) (Some err);
                  EvLog LogConnectionFailed; EvClose HEnvironment])
    ∨ (∃ err,
         trace (main C w)
         = boot ++ [EvNewConnection (address g) None;
                    EvDeclareQueue (queueName g) false (Some err);
                    EvLog (LogDeclareFailed err);
                    EvClose HManagement; EvClose HConnection;
                    EvClose HEnvironment])
    ∨ (∃ err,
         trace (main C w)
         = boot ++ [EvNewConnection (address g) None;
                    EvDeclareQueue (queueName g) false None;
                    EvPurgeQueue (queueName g) (Err err);
                    EvLog (LogPurgeError err);
                    EvClose HManagement; EvClose HConnection;
                    EvClose HEnvironment])
    ∨ (∃ purgedAmount,
         trace (main C w)
         = boot ++ [EvNewConnection (address g) None;
                    EvDeclareQueue (queueName g) false None;
                    EvPurgeQueue (queueName g) (Ok purgedAmount);
                    EvLog (LogPurging purgedAmount)]
           ++ trace (syncCycle C g w')
           ++ [EvClose HManagement; EvClose HConnection;
               EvClose HEnvironment]).
Proof.
  unfold main, defer, readGlobals.
  destruct (godotenv_Load C w) as [renv w0] eqn:Henv.
  destruct (NewConnection C (os_Getenv C "RABBITMQ_ADDRESS" w0) w0)
    as [rconn w1] eqn:Hconn.
  destruct (DeclareQueue C (os_Getenv C "RABBITMQ_QUEUE_NAME" w0) false w1)
    as [rdecl w2] eqn:Hdecl.
  destruct (PurgeQueue C (os_Getenv C "RABBITMQ_QUEUE_NAME" w0) w2)
    as [rpurge w3] eqn:Hpurge.
  exists renv,
    (MkGlobals (os_Getenv C "CLIENT_ID" w0)
       (os_Getenv C "RABBITMQ_ADDRESS" w0)
       (os_Getenv C "RABBITMQ_QUEUE_NAME" w0)
       (os_Getenv C "SYNC_SERVER_URL" w0)
       (os_Getenv C "SYNC_DIRECTORY" w0)), w3.
  destruct renv as [eenv|]; simpl; rewrite Henv; simpl;
    rewrite Hconn; simpl;
    (destruct rconn as [err|]; simpl; [left; by exists err|]);
    rewrite Hdecl; simpl;
    (destruct rdecl as [err|]; simpl; [right; left; by exists err|]);
    rewrite Hpurge; simpl;
    (destruct rpurge as [n|err]; simpl;
       [right; right; right; exists n; by rewrite <- ?app_assoc
       |right; right; left; by exists err]).
Qed.


#[local] Opaque main.

#[local] Ltac split_elem H :=
  repeat first
    [ apply elem_of_app in H as [H|H]
    | apply elem_of_cons in H as [H|H]
    | apply elem_of_nil in H; destruct H
    | apply list_elem_of_fmap in H as (? & H & _) ].

(** The events of [submitAndApply] and of [syncCycle]. *)
Lemma submitAndApply_events g s w :
  Forall (λ e, isSubmission e || isDirectiveCall e || isSnapshotCapture e
               || isLogOrClose e = true)
         (trace (submitAndApply C g s w)).
Proof.
  rewrite submitAndApply_trace. apply Forall_app. split.
  - eapply Forall_impl; [apply postSnapshot_events|]. intros e He. by destruct e.
  - destruct (value (postSnapshot C g s w)) as [plan|err]; [|by repeat constructor].
    constructor; [done|].
    eapply Forall_impl; [apply processActions_events|]. intros e He. by destruct e.
Qed.

Lemma syncCycle_events g w :
  Forall (λ e, isCycleWork e || isLogOrClose e = true) (trace (syncCycle C g w)).
Proof.
  destruct (syncCycle_trace g w) as (ls & ex & oerr & c & w2 & ->).
  assert (Hsub : ∀ s, Forall (λ e, isCycleWork e || isLogOrClose e = true)
                        (trace (submitAndApply C g s w2))).
  { intros s. eapply Forall_impl; [apply submitAndApply_events|].
    intros e He. by destruct e. }
  repeat (apply Forall_app; split); try by repeat constructor.
  - destruct oerr; by repeat constructor.
  - destruct c as [cur|err]; [|by repeat constructor].
    constructor; [done|]. destruct ex; constructor; try done.
    apply Forall_app. split; [|apply Hsub].
    apply Forall_fmap. by apply Forall_true.
Qed.

(** A cycle that does any work of the cycle proper has passed the
    bootstrap of the queue: around the events of [syncCycle] there is
    only the bootstrap before and the closes after. *)
Lemma main_reaches_cycle w e :
  e ∈ trace (main C w) → isCycleWork e = true →
  ∃ g w' pre post,
    trace (main C w) = pre ++ trace (syncCycle C g w') ++ post
    ∧ e ∈ trace (syncCycle C g w')
    ∧ Forall (λ e', isCycleWork e' = false) pre
    ∧ Forall (λ e', isLogOrClose e' = true) post.
Proof.
  intros He Hwork.
  destruct (main_trace w) as (renv & g & w' & Hcases). simpl in Hcases.
  destruct Hcases as [[err Htr]|[[err Htr]|[[err Htr]|[n Htr]]]];
    rewrite Htr in He |- *.
  1-3: exfalso; destruct renv; split_elem He; subst e; discriminate.
  exists g, w',
    (EvLoadEnv renv
     :: (from_option (λ err, [EvLog (LogNoEnv err)]) [] renv
         ++ [EvLog LogStarting])
     ++ [EvNewConnection (address g) None;
         EvDeclareQueue (queueName g) false None;
         EvPurgeQueue (queueName g) (Ok n); EvLog (LogPurging n)]),
    [EvClose HManagement; EvClose HConnection; EvClose HEnvironment].
  split; [|split; [|split]].
  - simpl. f_equal. by rewrite <- !app_assoc.
  - remember (trace (syncCycle C g w')) as cyc eqn:Hcyc.
    destruct renv; split_elem He; try subst e; try discriminate; done.
  - destruct renv; by repeat constructor.
  - by repeat constructor.
Qed.


(** An abort inside a part of the trace is an abort of the whole, when
    the part is preceded by no directive and no capture and followed by
    logs and closes only. *)
Lemma abortsAt_app_l (A inner : list (Event Meta Resp)) e :
  Forall (λ e', isDirectiveCall e' = false ∧ isSnapshotCapture e' = false) A →
  abortsAt inner e → abortsAt (A ++ inner) e.
Proof.
  intros HA [Hall (pre & post & -> & Hpost)]. split.
  - by apply Forall_app.
  - exists (A ++ pre), post. by rewrite <- !app_assoc.
Qed.

Lemma abortsAt_app_r (inner B : list (Event Meta Resp)) e :
  Forall (λ e', isLogOrClose e' = true) B →
  abortsAt inner e → abortsAt (inner ++ B) e.
Proof.
  intros HB [Hall (pre & post & -> & Hpost)]. split.
  - apply Forall_app. split; [done|].
    eapply Forall_impl; [exact HB|]. intros e' He'. by destruct e'.
  - exists pre, (post ++ B). split.
    + by rewrite <- !app_assoc.
    + by apply Forall_app.
Qed.

(** A failed step of the submission ends [submitAndApply]. *)
Lemma submitAndApply_failure g s w e :
  e ∈ trace (submitAndApply C g s w) → isSubmissionFailure e = true →
  abortsAt (trace (submitAndApply C g s w)) e.
Proof.
  rewrite submitAndApply_trace. intros He Hfail.
  assert (Hev := postSnapshot_events C g s w).
  assert (Hout := postSnapshot_outcome C g s w).
  destruct (value (postSnapshot C g s w)) as [plan|err].
  - exfalso. rewrite elem_of_app, elem_of_cons in He.
    destruct He as [He|[->|He]]; [|done|].
    + rewrite Forall_forall in Hout. specialize (Hout e He). congruence.
    + assert (Hpa := processActions_events C g plan (final (postSnapshot C g s w))).
      rewrite Forall_forall in Hpa. specialize (Hpa e He). by destruct e.
  - destruct Hout as (pre & f & post & Htr & Hf & Hpre & Hpost).
    rewrite Htr in He, Hev |- *.
    assert (e = f) as ->.
    { rewrite Forall_forall in Hpre, Hpost.
      rewrite <- app_assoc in He. simpl in He.
      rewrite elem_of_app, elem_of_cons, elem_of_app, elem_of_cons, elem_of_nil in He.
      destruct He as [He|[->|[He|[->|[]]]]]; [|done| |done].
      - specialize (Hpre e He). congruence.
      - specialize (Hpost e He). by destruct e. }
    split.
    + apply Forall_app. split; [|by repeat constructor].
      eapply Forall_impl; [exact Hev|]. intros e'. by destruct e'.
    + exists pre, (post ++ [EvLog (LogError err)]). split.
      * by rewrite <- app_assoc.
      * apply Forall_app. split; [done|by repeat constructor].
Qed.

#[local] Opaque processSnapshots.

(** A failed step of the submission ends [syncCycle]. *)
Lemma syncCycle_failure g w e :
  e ∈ trace (syncCycle C g w) → isSubmissionFailure e = true →
  abortsAt (trace (syncCycle C g w)) e.
Proof.
  destruct (syncCycle_trace g w) as (ls & ex & oerr & c & w2 & ->).
  intros He Hfail.
  destruct c as [cur|err];
    [|exfalso; destruct oerr; split_elem He; subst e; discriminate].
  cbv zeta in He |- *.
  remember (trace (submitAndApply C g _ w2)) as sub eqn:Hsub.
  assert (Hin : e ∈ sub).
  { destruct oerr, ex; split_elem He; try subst e; try discriminate; done. }
  subst sub. apply submitAndApply_failure in Hin; [|done].
  change (?a :: ?l ++ ?r) with ((a :: l) ++ r).
  rewrite !app_assoc. apply abortsAt_app_l; [|done].
  destruct oerr, ex; simpl; repeat constructor;
    apply Forall_fmap; by apply Forall_true.
Qed.

(** C5.  When a step of the submission of the snapshot fails
    (serialization, transport or decoding), [main] aborts there: after
    the failed step it only logs and closes what is open, it attempts no
    directive, and it captures no snapshot, so the persisted last
    snapshot is what it was. *)
Theorem submission_failure_aborts w e :
  e ∈ trace (main C w) → isSubmissionFailure e = true →
  abortsAt (trace (main C w)) e.
Proof.
  intros He Hfail.
  destruct (main_reaches_cycle w e He) as (g & w' & pre & post & -> & Hin & Hpre & Hpost).
  { by destruct e as [| | | | | |? []|? ? ? []|? []|[]| |? []| | | | | |]. }
  apply abortsAt_app_l.
  - eapply Forall_impl; [exact Hpre|]. intros e' He'. by destruct e'.
  - apply abortsAt_app_r; [done|]. by apply syncCycle_failure.
Qed.


(** A nil plan in the decoded response: nothing follows the submission
    but two log entries. *)
Lemma submitAndApply_nil_plan g s w bodyBytes :
  EvUnmarshal bodyBytes (Ok (MkPostSnapshotResponse None))
  ∈ trace (submitAndApply C g s w) →
  Forall (λ e, isDirectiveCall e = false ∧ isSnapshotCapture e = false)
         (trace (submitAndApply C g s w)).
Proof.
  rewrite submitAndApply_trace. intros He.
  assert (Hev := postSnapshot_events C g s w).
  assert (Hdec := postSnapshot_decoded C g s w bodyBytes (MkPostSnapshotResponse None)).
  apply elem_of_app in He as [He|He].
  - rewrite (Hdec He). apply Forall_app. split; [|by repeat constructor].
    eapply Forall_impl; [exact Hev|]. intros e' He'. by destruct e'.
  - exfalso. destruct (value (postSnapshot C g s w)) as [plan|err].
    + apply elem_of_cons in He as [?|He]; [discriminate|].
      assert (Hpa := processActions_events C g plan (final (postSnapshot C g s w))).
      rewrite Forall_forall in Hpa. by specialize (Hpa _ He).
    + apply elem_of_cons in He as [?|He]; [discriminate|].
      by apply elem_of_nil in He.
Qed.

Lemma syncCycle_nil_plan g w bodyBytes :
  EvUnmarshal bodyBytes (Ok (MkPostSnapshotResponse None))
  ∈ trace (syncCycle C g w) →
  Forall (λ e, isDirectiveCall e = false ∧ isSnapshotCapture e = false)
         (trace (syncCycle C g w)).
Proof.
  destruct (syncCycle_trace g w) as (ls & ex & oerr & c & w2 & ->).
  intros He.
  destruct c as [cur|err];
    [|exfalso; destruct oerr; split_elem He; discriminate].
  cbv zeta in He |- *.
  remember (trace (submitAndApply C g _ w2)) as sub eqn:Hsub.
  assert (Hin : EvUnmarshal bodyBytes (Ok (MkPostSnapshotResponse None)) ∈ sub).
  { destruct oerr, ex; split_elem He; try discriminate; done. }
  subst sub. apply submitAndApply_nil_plan in Hin.
  change (?a :: ?l ++ ?r) with ((a :: l) ++ r).
  rewrite !app_assoc. apply Forall_app. split; [|done].
  destruct oerr, ex; simpl; repeat constructor;
    apply Forall_fmap; by apply Forall_true.
Qed.

(** C4, as amended.  For the nil plan [processActions] logs that there
    is nothing to do and returns at once: it calls no capability, it
    captures no snapshot, and the world (the persisted last snapshot
    with it) is as it was.  So a cycle in which the response of the
    server decodes to a nil plan attempts no directive and captures no
    snapshot. *)
Theorem nil_plan_returns_at_once g w :
  processActions C g None w = MkRun () w [EvLog LogNoActions]
  ∧ ∀ bodyBytes,
      EvUnmarshal bodyBytes (Ok (MkPostSnapshotResponse None)) ∈ trace (main C w) →
      Forall (λ e, isDirectiveCall e = false ∧ isSnapshotCapture e = false)
             (trace (main C w)).
Proof.
  split; [reflexivity|]. intros bodyBytes He.
  destruct (main_reaches_cycle w _ He eq_refl)
    as (g' & w' & pre & post & -> & Hin & Hpre & Hpost).
  apply Forall_app; split; [|apply Forall_app; split].
  - eapply Forall_impl; [exact Hpre|]. intros e' He'. by destruct e'.
  - by apply syncCycle_nil_plan in Hin.
  - eapply Forall_impl; [exact Hpost|]. intros e' He'. by destruct e'.
Qed.

(** What [submitAndApply] submits is the snapshot it is given. *)
Lemma submitAndApply_payload g s w :
  (∃ r, EvMarshal (MkPostSnapshotRequest (clientID g) s) r
        ∈ trace (submitAndApply C g s w))
  ∧ ∀ payload r, EvMarshal payload r ∈ trace (submitAndApply C g s w) →
      FinalSnapshot payload = s.
Proof.
  rewrite submitAndApply_trace.
  destruct (postSnapshot_payload C g s w) as (r & rest & -> & Hrest).
  split.
  - exists r. rewrite elem_of_app, !elem_of_cons. auto.
  - intros payload r' Hin.
    rewrite elem_of_app, !elem_of_cons in Hin.
    destruct Hin as [[?|[?|[Heq|Hin]]]|Hin]; try discriminate.
    + by injection Heq as -> _.
    + by apply Hrest in Hin.
    + exfalso. destruct (value (postSnapshot C g s w)) as [plan|err].
      * apply elem_of_cons in Hin as [?|Hin]; [discriminate|].
        assert (Hpa := processActions_events C g plan (final (postSnapshot C g s w))).
        rewrite Forall_forall in Hpa. by specialize (Hpa _ Hin).
      * apply elem_of_cons in Hin as [?|Hin]; [discriminate|].
        by apply elem_of_nil in Hin.
Qed.

(** The cycle after the read of the last snapshot: whatever the error
    of that read, the current snapshot is read next, and what is
    submitted is the diff when the last snapshot exists and the current
    snapshot as it is when it does not. *)
Lemma syncCycle_submission g w ls ex oerr :
  EvGetLastSnapshot (ls, ex, oerr) ∈ trace (syncCycle C g w) →
  (∀ err, oerr = Some err → EvLog (LogError err) ∈ trace (syncCycle C g w))
  ∧ (∃ c, EvGetLocalMetadata c ∈ trace (syncCycle C g w))
  ∧ ∀ cur, EvGetLocalMetadata (Ok cur) ∈ trace (syncCycle C g w) →
      let submitted :=
        if ex
        then processSnapshots ls cur (canonical_order _) (canonical_order _)
        else cur in
      (∃ r, EvMarshal (MkPostSnapshotRequest (clientID g) submitted) r
            ∈ trace (syncCycle C g w))
      ∧ ∀ payload r, EvMarshal payload r ∈ trace (syncCycle C g w) →
          FinalSnapshot payload = submitted.
Proof.
  destruct (syncCycle_trace g w) as (ls0 & ex0 & oerr0 & c & w2 & ->).
  cbv zeta.
  assert (Hsub : ∀ s e, e ∈ trace (submitAndApply C g s w2) →
                        isSnapshotRead e = false).
  { intros s e He. assert (Hev := submitAndApply_events g s w2).
    rewrite Forall_forall in Hev. specialize (Hev e He). by destruct e. }
  intros Hlast.
  assert (ls0 = ls ∧ ex0 = ex ∧ oerr0 = oerr) as (-> & -> & ->).
  { destruct c as [cur|err].
    - remember (trace (submitAndApply C g _ w2)) as sub eqn:Heqsub.
      destruct oerr0, ex0; split_elem Hlast; try discriminate;
        try (by injection Hlast as -> -> ->);
        subst sub; by apply Hsub in Hlast.
    - destruct oerr0; split_elem Hlast; try discriminate;
        by injection Hlast as -> -> ->. }
  clear Hlast. split; [|split].
  - intros err ->. simpl. rewrite !elem_of_cons. auto.
  - exists c. rewrite !elem_of_app, !elem_of_cons. auto 10.
  - intros cur Hcur.
    assert (c = Ok cur) as ->.
    { destruct c as [cur0|err].
      - remember (trace (submitAndApply C g _ w2)) as sub eqn:Heqsub.
        destruct oerr, ex; split_elem Hcur; try discriminate;
          try (by injection Hcur as ->);
          subst sub; by apply Hsub in Hcur.
      - destruct oerr; split_elem Hcur; discriminate. }
    clear Hcur.
    assert (Hsame :
      (if ex
       then processSnapshots ls cur (rangeFiles C w2 (Files ls))
              (rangeFiles C w2 (Files cur))
       else cur)
      = (if ex
         then processSnapshots ls cur (canonical_order _) (canonical_order _)
         else cur)).
    { destruct ex; [apply processSnapshots_order|done]. }
    rewrite Hsame.
    destruct (submitAndApply_payload g
                (if ex
                 then processSnapshots ls cur (canonical_order _) (canonical_order _)
                 else cur) w2) as [[r Hr] Honly].
    remember (trace (submitAndApply C g _ w2)) as sub eqn:Heqsub.
    split.
    + exists r. rewrite !elem_of_app, !elem_of_cons, !elem_of_app. auto 10.
    + intros payload r' Hin. apply (Honly payload r').
      destruct oerr, ex; split_elem Hin; try discriminate; done.
Qed.

(** The same for [main]: the read of the last snapshot is part of the
    cycle that follows the bootstrap of the queue. *)
Lemma main_submission w ls ex oerr :
  EvGetLastSnapshot (ls, ex, oerr) ∈ trace (main C w) →
  (∀ err, oerr = Some err → EvLog (LogError err) ∈ trace (main C w))
  ∧ (∃ c, EvGetLocalMetadata c ∈ trace (main C w))
  ∧ ∀ cur, EvGetLocalMetadata (Ok cur) ∈ trace (main C w) →
      let submitted :=
        if ex
        then processSnapshots ls cur (canonical_order _) (canonical_order _)
        else cur in
      (∃ client r, EvMarshal (MkPostSnapshotRequest client submitted) r
                   ∈ trace (main C w))
      ∧ ∀ payload r, EvMarshal payload r ∈ trace (main C w) →
          FinalSnapshot payload = submitted.
Proof.
  intros Hlast.
  destruct (main_reaches_cycle w _ Hlast eq_refl)
    as (g & w' & pre & post & Htr & Hin & Hpre & Hpost).
  assert (Hcyc : ∀ e, isCycleWork e = true → e ∈ trace (main C w) →
                      e ∈ trace (syncCycle C g w')).
  { intros e Hwork He. rewrite Htr, !elem_of_app in He.
    rewrite Forall_forall in Hpre, Hpost.
    destruct He as [He|[He|He]]; [|done|].
    - specialize (Hpre e He). congruence.
    - specialize (Hpost e He). by destruct e. }
  assert (Hmain : ∀ e, e ∈ trace (syncCycle C g w') → e ∈ trace (main C w)).
  { intros e He. rewrite Htr, !elem_of_app. auto. }
  destruct (syncCycle_submission g w' ls ex oerr Hin) as (Hlog & [c Hc] & Hsub).
  split; [|split].
  - intros err Herr. by apply Hmain, Hlog.
  - exists c. by apply Hmain.
  - intros cur Hcur. cbv zeta.
    destruct (Hsub cur (Hcyc (EvGetLocalMetadata (Ok cur)) eq_refl Hcur))
      as [[r Hr] Honly].
    split.
    + exists (clientID g), r. by apply Hmain.
    + intros payload r' Hp. apply (Honly payload r').
      by apply (Hcyc (EvMarshal payload r') eq_refl).
Qed.

(** C6.  On a first run (the read of the last snapshot says that none
    exists) the snapshot that [main] submits is the current snapshot as
    the file manager returned it: that snapshot is marshalled, and
    nothing else is. *)
Theorem first_run_equivalence w ls oerr cur :
  EvGetLastSnapshot (ls, false, oerr) ∈ trace (main C w) →
  EvGetLocalMetadata (Ok cur) ∈ trace (main C w) →
  (∃ client r, EvMarshal (MkPostSnapshotRequest client cur) r ∈ trace (main C w))
  ∧ ∀ payload r, EvMarshal payload r ∈ trace (main C w) →
      FinalSnapshot payload = cur.
Proof.
  intros Hlast Hcur.
  destruct (main_submission w ls false oerr Hlast) as (_ & _ & Hsub).
  exact (Hsub cur Hcur).
Qed.

(** C10.  An error of the read of the last snapshot does not end the
    cycle: it is logged, the current snapshot is read, and when that
    read succeeds a snapshot is submitted, the diff of the returned last
    snapshot and the current one when the returned flag says that the
    last snapshot exists, the current snapshot when it says that it does
    not, as without the error. *)
Theorem last_snapshot_error_not_fatal w ls ex err :
  EvGetLastSnapshot (ls, ex, Some err) ∈ trace (main C w) →
  EvLog (LogError err) ∈ trace (main C w)
  ∧ (∃ c, EvGetLocalMetadata c ∈ trace (main C w))
  ∧ ∀ cur, EvGetLocalMetadata (Ok cur) ∈ trace (main C w) →
      ∃ client r,
        EvMarshal
          (MkPostSnapshotRequest client
             (if ex
              then processSnapshots ls cur (canonical_order _) (canonical_order _)
              else cur)) r
        ∈ trace (main C w).
Proof.
  intros Hlast.
  destruct (main_submission w ls ex (Some err) Hlast) as (Hlog & Hc & Hsub).
  split; [by apply Hlog|]. split; [done|].
  intros cur Hcur. by destruct (Hsub cur Hcur) as [? _].
Qed.

(** C8.  When the purge of the queue returns an error, [main] does no
    work of the cycle: it reads no snapshot, submits nothing, attempts
    no directive and captures no snapshot.  When the declaration of the
    queue returns an error, the same holds and the purge is not
    attempted either. *)
Theorem queue_failure_aborts w :
  (∀ name err, EvPurgeQueue name (Err err) ∈ trace (main C w) →
     Forall (λ e, isCycleWork e = false) (trace (main C w)))
  ∧ (∀ name isAutoDelete err,
       EvDeclareQueue name isAutoDelete (Some err) ∈ trace (main C w) →
       Forall (λ e, isCycleWork e = false ∧ isPurge e = false) (trace (main C w))).
Proof.
  assert (Hcyc : ∀ g w' e, e ∈ trace (syncCycle C g w') →
                   isCycleWork e || isLogOrClose e = true).
  { intros g w' e He. assert (Hev := syncCycle_events g w').
    rewrite Forall_forall in Hev. by apply Hev. }
  destruct (main_trace w) as (renv & g & w' & Hcases). simpl in Hcases.
  destruct Hcases as [[err0 ->]|[[err0 ->]|[[err0 ->]|[n ->]]]].
  - split; intros; destruct renv; by repeat constructor.
  - split; intros; destruct renv; by repeat constructor.
  - split.
    + intros; destruct renv; by repeat constructor.
    + intros name isAutoDelete err Hin. exfalso.
      destruct renv; split_elem Hin; discriminate.
  - remember (trace (syncCycle C g w')) as cyc eqn:Heqcyc.
    split.
    + intros name err Hin. exfalso.
      destruct renv; split_elem Hin; try discriminate;
        subst cyc; by apply Hcyc in Hin.
    + intros name isAutoDelete err Hin. exfalso.
      destruct renv; split_elem Hin; try discriminate;
        subst cyc; by apply Hcyc in Hin.
Qed.

End CycleFacts.

(** ** The properties on the concrete inputs *)

(** A membership in a trace that computes: the event is found at some
    position of the trace. *)
#[local] Ltac in_trace_from n :=
  first [ apply (list_elem_of_lookup_2 _ n); vm_compute; reflexivity
        | in_trace_from (S n) ].
#[local] Ltac in_trace := in_trace_from 0.

(** C4, as stated, fails: for the nil plan no snapshot is captured. *)
Lemma nil_plan_takes_no_snapshot :
  ¬ (Forall (λ e, isDirectiveCall e = false)
       (trace (processActions Sample.healthy Sample.globals None (Some Sample.last)))
     ∧ Exists (λ e, isSnapshotCapture e = true)
         (trace (processActions Sample.healthy Sample.globals None (Some Sample.last)))).
Proof.
  intros [_ Hcapture].
  apply Exists_cons in Hcapture as [Hlog|Hrest]; [discriminate|].
  by apply Exists_nil in Hrest.
Qed.

Lemma nil_plan_returns_at_once_witness :
  EvUnmarshal "{}" (Ok (MkPostSnapshotResponse None))
  ∈ trace (main Sample.lastUnreadable (Some Sample.last))
  ∧ Forall (λ e, isDirectiveCall e = false ∧ isSnapshotCapture e = false)
      (trace (main Sample.lastUnreadable (Some Sample.last))).
Proof.
  assert (Hin : EvUnmarshal (Meta:=string) (Resp:=string) "{}"
                  (Ok (MkPostSnapshotResponse None))
                ∈ trace (main Sample.lastUnreadable (Some Sample.last)))
    by in_trace.
  split; [exact Hin|].
  exact (proj2 (nil_plan_returns_at_once Sample.lastUnreadable Sample.globals
                  (Some Sample.last)) "{}" Hin).
Defined.

(** After that cycle the stored last snapshot is the one it started
    with. *)
Example nil_plan_cycle :
  final (main Sample.lastUnreadable (Some Sample.last)) = Some Sample.last.
Proof. reflexivity. Qed.

Lemma partial_failure_isolation_witness :
  let e := EvUpload "/sync/a.txt" "client-1" (Err "upload refused") in
  let d := MkFileActionMetadata "upload" in
  let tr := trace (processActions Sample.uploadsFail Sample.globals
                     (Some Sample.plan) None) in
  PlanFiles Sample.plan !! "a.txt" = Some d
  ∧ e ∈ tr
  ∧ failsAt Sample.uploadsFail Sample.globals "a.txt" d e = true
  ∧ (∃ wp, isolates Sample.uploadsFail Sample.globals Sample.plan None "a.txt"
             (trace (directive Sample.uploadsFail Sample.globals ("a.txt", d) wp)))
  ∧ ∃ pre post r, tr = pre ++ e :: post ∧ EvCreateDirectorySnapshot r ∈ post.
Proof.
  intros e d tr.
  assert (Hplan : PlanFiles Sample.plan !! "a.txt" = Some d) by (vm_compute; reflexivity).
  assert (Hin : e ∈ tr) by in_trace.
  assert (Hfail : failsAt Sample.uploadsFail Sample.globals "a.txt" d e = true)
    by (vm_compute; reflexivity).
  split; [exact Hplan|]. split; [exact Hin|]. split; [exact Hfail|].
  exact (partial_failure_isolation Sample.uploadsFail Sample.globals Sample.plan
           None "a.txt" d e Hplan Hin Hfail).
Defined.

Lemma unknown_action_skipped_witness :
  let d := MkFileActionMetadata "rename" in
  PlanFiles Sample.plan !! "old.txt" = Some d
  ∧ knownAction (Action d) = false
  ∧ isolates Sample.healthy Sample.globals Sample.plan None "old.txt"
      [EvLog (LogProcessing (Action d) "old.txt");
       EvLog (LogUnknownAction (Action d) "old.txt")].
Proof.
  intros d.
  assert (Hplan : PlanFiles Sample.plan !! "old.txt" = Some d) by (vm_compute; reflexivity).
  assert (Hunknown : knownAction (Action d) = false) by (vm_compute; reflexivity).
  split; [exact Hplan|]. split; [exact Hunknown|].
  exact (unknown_action_skipped Sample.healthy Sample.globals Sample.plan None
           "old.txt" d Hplan Hunknown).
Defined.

Lemma submission_failure_aborts_witness :
  let e := EvDo (Header_Set (MkRequest "POST" "http://server/snapshot" "{}" [])
                   "Content-Type" "application/json")
                (Err "connection refused") in
  let tr := trace (main Sample.serverDown (Some Sample.last)) in
  e ∈ tr ∧ isSubmissionFailure e = true ∧ abortsAt tr e.
Proof.
  intros e tr.
  assert (Hin : e ∈ tr) by in_trace.
  assert (Hfail : isSubmissionFailure e = true) by reflexivity.
  split; [exact Hin|]. split; [exact Hfail|].
  exact (submission_failure_aborts Sample.serverDown (Some Sample.last) e Hin Hfail).
Defined.

Lemma first_run_equivalence_witness :
  let tr := trace (main Sample.healthy None) in
  EvGetLastSnapshot (Sample.nothing, false, None) ∈ tr
  ∧ EvGetLocalMetadata (Ok Sample.current) ∈ tr
  ∧ (∃ client r, EvMarshal (MkPostSnapshotRequest client Sample.current) r ∈ tr)
  ∧ ∀ payload r, EvMarshal payload r ∈ tr → FinalSnapshot payload = Sample.current.
Proof.
  intros tr.
  assert (Hlast : EvGetLastSnapshot (Sample.nothing, false, None) ∈ tr) by in_trace.
  assert (Hcur : EvGetLocalMetadata (Ok Sample.current) ∈ tr) by in_trace.
  split; [exact Hlast|]. split; [exact Hcur|].
  exact (first_run_equivalence Sample.healthy None Sample.nothing None
           Sample.current Hlast Hcur).
Defined.

Lemma last_snapshot_error_not_fatal_witness :
  let tr := trace (main Sample.lastUnreadable (Some Sample.last)) in
  EvGetLastSnapshot (Sample.last, true, Some "last snapshot: bad checksum") ∈ tr
  ∧ EvLog (LogError "last snapshot: bad checksum") ∈ tr
  ∧ (∃ c, EvGetLocalMetadata c ∈ tr)
  ∧ ∀ cur, EvGetLocalMetadata (Ok cur) ∈ tr →
      ∃ client r,
        EvMarshal
          (MkPostSnapshotRequest client
             (processSnapshots Sample.last cur (canonical_order _) (canonical_order _)))
          r ∈ tr.
Proof.
  intros tr.
  assert (Hlast : EvGetLastSnapshot
                    (Sample.last, true, Some "last snapshot: bad checksum") ∈ tr)
    by in_trace.
  split; [exact Hlast|].
  exact (last_snapshot_error_not_fatal Sample.lastUnreadable (Some Sample.last)
           Sample.last true "last snapshot: bad checksum" Hlast).
Defined.

Lemma queue_failure_aborts_witness :
  (EvPurgeQueue "client-1-queue" (Err "purge: connection lost")
   ∈ trace (main Sample.purgeFails (Some Sample.last))
   ∧ Forall (λ e, isCycleWork e = false)
       (trace (main Sample.purgeFails (Some Sample.last))))
  ∧ (EvDeclareQueue "client-1-queue" false (Some "declare: access refused")
     ∈ trace (main Sample.declareFails (Some Sample.last))
     ∧ Forall (λ e, isCycleWork e = false ∧ isPurge e = false)
         (trace (main Sample.declareFails (Some Sample.last)))).
Proof.
  assert (Hpurge : EvPurgeQueue (Meta:=string) (Resp:=string) "client-1-queue"
                     (Err "purge: connection lost")
                   ∈ trace (main Sample.purgeFails (Some Sample.last))) by in_trace.
  assert (Hdeclare : EvDeclareQueue (Meta:=string) (Resp:=string) "client-1-queue"
                       false (Some "declare: access refused")
                     ∈ trace (main Sample.declareFails (Some Sample.last))) by in_trace.
  split; (split; [assumption|]).
  - exact (proj1 (queue_failure_aborts Sample.purgeFails (Some Sample.last))
             _ _ Hpurge).
  - exact (proj2 (queue_failure_aborts Sample.declareFails (Some Sample.last))
             _ _ _ Hdeclare).
Defined.

(** A whole cycle in which every call succeeds: the snapshot is
    captured and stored. *)
Example healthy_cycle_captures :
  Exists (λ e, isSnapshotCapture e = true)
    (trace (main Sample.healthy (Some Sample.last)))
  ∧ final (main Sample.healthy (Some Sample.last)) = Some Sample.current.
Proof.
  split; [|reflexivity].
  apply Exists_exists. exists (EvCreateDirectorySnapshot None).
  split; [in_trace|reflexivity].
Qed.

(** A cycle in which the server cannot be reached: the stored last
    snapshot is the one the cycle started with. *)
Example unreachable_server_keeps_store :
  final (main Sample.serverDown (Some Sample.last)) = Some Sample.last.
Proof. reflexivity. Qed.

(** * Further properties *)

(** ** The diff engine *)

Section DiffFacts.
Context {Meta : Type}.

Implicit Types (last current : DirectoryMetadata Meta).

Lemma snapshot_eq (s1 s2 : DirectoryMetadata Meta) :
  (∀ path, Files s1 !! path = Files s2 !! path) → s1 = s2.
Proof.
  destruct s1 as [m1], s2 as [m2]. simpl. intros H. f_equal. by apply map_eq.
Qed.

(** The merged snapshot does not depend on the order in which Go visits
    the two maps. *)
Theorem diff_order_independent last current ol oc ol' oc' :
  processSnapshots last current ol oc = processSnapshots last current ol' oc'.
Proof.
  apply snapshot_eq. intros path. by rewrite !processSnapshots_lookup.
Qed.

(** When nothing was removed (every path of [last] is still in
    [current]), the merged snapshot is [current]: no tombstone, no trace
    of [last]'s records.  An empty [last] is the first case of it. *)
Theorem diff_without_removal last current ol oc :
  dom (Files last) ⊆ dom (Files current) →
  processSnapshots last current ol oc = current.
Proof.
  intros Hsub. apply snapshot_eq. intros path. rewrite processSnapshots_lookup.
  destruct (Files current !! path) as [fc|] eqn:Hc; [done|].
  apply not_elem_of_dom in Hc.
  assert (Hl : path ∉ dom (Files last)) by set_solver.
  apply not_elem_of_dom in Hl. by rewrite Hl.
Qed.

(** The tombstone of a removed path keeps the content metadata of the
    last snapshot; only the status changes. *)
Theorem tombstone_keeps_content last current ol oc path fm :
  Files last !! path = Some fm → Files current !! path = None →
  Files (processSnapshots last current ol oc) !! path
  = Some (MkFileMetadata StatusDeleted (Content fm)).
Proof.
  intros Hl Hc. by rewrite processSnapshots_lookup, Hc, Hl.
Qed.

(** Against an empty current snapshot every record of [last] becomes a
    tombstone. *)
Theorem diff_against_empty last current ol oc :
  Files current = ∅ →
  Files (processSnapshots last current ol oc) = setDeleted <$> Files last.
Proof.
  intros Hempty. apply map_eq. intros path.
  by rewrite processSnapshots_lookup, Hempty, lookup_empty, lookup_fmap.
Qed.

(** Diffing the merged snapshot against the same current snapshot again
    changes nothing: the tombstones stay, and nothing is added. *)
Theorem diff_idempotent last current ol oc ol' oc' :
  processSnapshots (processSnapshots last current ol oc) current ol' oc'
  = processSnapshots last current ol oc.
Proof.
  apply snapshot_eq. intros path. rewrite !processSnapshots_lookup.
  destruct (Files current !! path) as [fc|]; [done|].
  by destruct (Files last !! path).
Qed.

(** Line 135 logs one tombstone for each removed path, and for nothing
    else: the logged paths are the keys of [last] that are not keys of
    [current], each once. *)
Theorem tombstone_log_paths last current (ol : RangeOrder (Files last)) :
  tombstonePaths current (visit ol)
  ≡ₚ elements (dom (Files last) ∖ dom (Files current)).
Proof.
  unfold tombstonePaths. rewrite (visit_perm ol).
  apply NoDup_Permutation.
  - apply (sublist_NoDup _ (map_to_list (Files last)).*1).
    + apply NoDup_fst_map_to_list.
    + apply fmap_sublist, sublist_filter.
  - apply NoDup_elements.
  - intros path.
    rewrite elem_of_elements, elem_of_difference, elem_of_dom, not_elem_of_dom.
    rewrite list_elem_of_fmap. split.
    + intros ([k fm] & -> & [Hc Hin]%list_elem_of_filter).
      apply elem_of_map_to_list in Hin. eauto.
    + intros [[fm Hl] Hc]. exists (path, fm). split; [done|].
      apply list_elem_of_filter. split; [done|]. by apply elem_of_map_to_list.
Qed.

End DiffFacts.

(** ** The protocol client *)

Section SubmissionExtras.
Context {Meta World Resp : Type}.
Variable C : Collaborators Meta World Resp.

Implicit Types (e : Event Meta Resp) (w : World) (g : Globals).
Implicit Types (s : DirectoryMetadata Meta).

#[local] Ltac case_step :=
  match goal with
  | |- context [match ?x with Ok _ => _ | Err _ => _ end] =>
      lazymatch x with
      | value _ => fail
      | _ => destruct x eqn:?; simpl
      end
  end.

#[local] Ltac in_list H :=
  repeat (apply elem_of_cons in H as [H|H]; [try discriminate|]);
  try (by apply elem_of_nil in H).

(** [postSnapshot] returns an error exactly when one of its steps
    failed, and the error it returns is the error of that step,
    unchanged. *)
Theorem submission_error_propagates g s w err :
  value (postSnapshot C g s w) = Err err
  ↔ ∃ e, e ∈ trace (postSnapshot C g s w) ∧ submissionError e = Some err.
Proof.
  unfold postSnapshot, defer. simpl.
  repeat case_step; (split; [intros [= ->] || intros [=] | intros (e & He & Herr)]).
  all: try (match goal with
            | |- ∃ e, e ∈ ?l ∧ _ =>
                match l with
                | context [?ev :: _] =>
                    exists ev; split; [rewrite !elem_of_cons; auto 10|reflexivity]
                end
            end).
  all: in_list He; subst e; simpl in Herr; congruence.
Qed.

(** [req.Header.Set] leaves one value for the key. *)
Lemma Header_Set_lookup req key value v :
  (key, v) ∈ Header (Header_Set req key value) ↔ v = value.
Proof.
  unfold Header_Set. simpl. rewrite elem_of_cons, list_elem_of_filter. simpl.
  split; [|intros ->; by left]. intros [[= ->]|[? _]]; done.
Qed.

(** What goes to the server: the request is a POST to
    [serverURL/snapshot] whose body is the marshalled pair of the client
    id and the snapshot, and its only content type is JSON. *)
Theorem submission_request g s w req r :
  EvDo req r ∈ trace (postSnapshot C g s w) →
  ∃ jsonData req0,
    json_Marshal C (MkPostSnapshotRequest (clientID g) s) = Ok jsonData
    ∧ http_NewRequest C "POST" (serverURL g +:+ "/snapshot") jsonData = Ok req0
    ∧ req = Header_Set req0 "Content-Type" "application/json"
    ∧ ∀ v, ("Content-Type", v) ∈ Header req ↔ v = "application/json".
Proof.
  unfold postSnapshot, defer. simpl.
  repeat case_step; intros H; in_list H.
  all: injection H as -> _; do 2 eexists;
    (split; [done|]); (split; [done|]); (split; [done|]);
    intros v; apply Header_Set_lookup.
Qed.

(** The body of the response is closed exactly when the exchange
    returned a response, then once, and as the last thing
    [postSnapshot] does: also when the read or the decoding of the body
    fails. *)
Theorem response_body_closed g s w :
  ((EvBodyClose ∉ trace (postSnapshot C g s w))
   ∧ (∀ req resp, EvDo req (Ok resp) ∉ trace (postSnapshot C g s w)))
  ∨ (∃ pre req resp,
       trace (postSnapshot C g s w) = pre ++ [EvBodyClose]
       ∧ (EvBodyClose ∉ pre)
       ∧ EvDo req (Ok resp) ∈ pre).
Proof.
  unfold postSnapshot, defer. simpl.
  repeat case_step.
  1-3: right;
    first [ eexists [_; _; _; _; _; _; _], _, _; split; [reflexivity|]
          | eexists [_; _; _; _; _; _; _; _], _, _; split; [reflexivity|] ];
    (split; [intros H; in_list H | rewrite !elem_of_cons; auto 10]).
  all: left; split; [|intros req resp]; intros H; in_list H.
Qed.

(** A submission closes none of the handles of [main]. *)
Lemma postSnapshot_keeps_handles g s w :
  Forall (λ e, isHandleClose e = false) (trace (postSnapshot C g s w)).
Proof.
  unfold postSnapshot, defer. simpl.
  repeat case_step; by repeat constructor.
Qed.

End SubmissionExtras.

(** ** The executor *)

Section ExecutorExtras.
Context {Meta World Resp : Type}.
Variable C : Collaborators Meta World Resp.

Implicit Types (e : Event Meta Resp) (w : World) (g : Globals).
Implicit Types (kv : string * FileActionMetadata).

(** A plan that is not nil but has no directive: nothing is called, and
    the snapshot is captured all the same. *)
Theorem empty_plan_still_captures g plan w :
  PlanFiles plan = ∅ →
  ∃ r, trace (processActions C g (Some plan) w) = refreshEvents r.
Proof.
  intros Hempty.
  assert (Hvisit : visit (rangeActions C w (PlanFiles plan)) = []).
  { apply Permutation_nil_r. rewrite (visit_perm _), Hempty.
    by rewrite map_to_list_empty. }
  change (trace (processActions C g (Some plan) w))
    with (trace (forEach (visit (rangeActions C w (PlanFiles plan)))
                   (directive C g) w)
          ++ trace (refreshSnapshot C g
                      (final (forEach (visit (rangeActions C w (PlanFiles plan)))
                                (directive C g) w)))).
  rewrite Hvisit. simpl. apply refreshSnapshot_trace.
Qed.

(** A directive calls its capability once when its action is known, and
    calls nothing when it is not. *)
Lemma directive_call_count g kv w :
  length (filter (λ e, isDirectiveCall e = true) (trace (directive C g kv w)))
  = if isKnownDirective kv then 1 else 0.
Proof.
  destruct kv as [path [action]].
  unfold directive, isKnownDirective, knownAction. simpl.
  destruct (decide (action = ActionUpload)) as [->|Hup]; simpl.
  { by destruct (Upload _ _ _ _ _ _).1. }
  rewrite (bool_decide_eq_false_2 _ Hup).
  destruct (decide (action = ActionDownload)) as [->|Hdown]; simpl.
  { by destruct (Download _ _ _ _ _).1. }
  rewrite (bool_decide_eq_false_2 _ Hdown).
  destruct (decide (action = ActionMkdir)) as [->|Hmk]; simpl.
  { by destruct (MkDir _ _ _).1. }
  by rewrite (bool_decide_eq_false_2 _ Hmk).
Qed.

Lemma forEach_call_count g (l : list (string * FileActionMetadata)) w :
  length (filter (λ e, isDirectiveCall e = true)
            (trace (forEach l (directive C g) w)))
  = length (filter (λ kv, isKnownDirective kv = true) l).
Proof.
  revert w. induction l as [|kv l IH]; intros w; [done|].
  rewrite forEach_cons_trace, filter_app, length_app, IH, directive_call_count.
  rewrite filter_cons. by destruct (isKnownDirective kv).
Qed.

Lemma filter_none {A : Type} (P : A → Prop) `{!∀ x, Decision (P x)} (l : list A) :
  Forall (λ x, ¬ P x) l → filter P l = [].
Proof.
  induction 1 as [|x l Hx _ IH]; [done|]. by rewrite filter_cons_False.
Qed.

(** The run of a plan makes one capability call for each directive with
    a known action, no more (no retry) and no less, and captures the
    snapshot once, whatever the calls return. *)
Theorem one_call_per_directive g plan w :
  length (filter (λ e, isDirectiveCall e = true)
            (trace (processActions C g (Some plan) w)))
  = length (filter (λ kv, isKnownDirective kv = true)
              (map_to_list (PlanFiles plan)))
  ∧ length (filter (λ e, isSnapshotCapture e = true)
              (trace (processActions C g (Some plan) w))) = 1.
Proof.
  set (o := rangeActions C w (PlanFiles plan)).
  change (trace (processActions C g (Some plan) w))
    with (trace (forEach (visit o) (directive C g) w)
          ++ trace (refreshSnapshot C g
                      (final (forEach (visit o) (directive C g) w)))).
  destruct (refreshSnapshot_trace C g (final (forEach (visit o) (directive C g) w)))
    as [r ->].
  rewrite !filter_app, !length_app. split.
  - rewrite forEach_call_count, (visit_perm o). simpl. lia.
  - assert (Hnone : filter (λ e, isSnapshotCapture e = true)
                      (trace (forEach (visit o) (directive C g) w)) = []).
    { apply filter_none.
      apply forEach_Forall. intros kv w'.
      eapply Forall_impl; [apply directive_events|].
      intros e He. destruct e; simpl in *; congruence. }
    by rewrite Hnone.
Qed.

(** The run of a plan closes none of the handles of [main], and it
    ends with the capture of a snapshot. *)
Lemma processActions_keeps_handles g plan w :
  Forall (λ e, isHandleClose e = false) (trace (processActions C g plan w)).
Proof.
  destruct plan as [plan|]; [|by repeat constructor].
  change (trace (processActions C g (Some plan) w))
    with (trace (forEach (visit (rangeActions C w (PlanFiles plan)))
                   (directive C g) w)
          ++ trace (refreshSnapshot C g
                      (final (forEach (visit (rangeActions C w (PlanFiles plan)))
                                (directive C g) w)))).
  apply Forall_app. split.
  - apply forEach_Forall. intros kv w'.
    unfold directive. repeat case_decide; simpl.
    + destruct (Upload _ _ _ _ _ _).1; by repeat constructor.
    + destruct (Download _ _ _ _ _).1; by repeat constructor.
    + destruct (MkDir _ _ _).1; by repeat constructor.
    + by repeat constructor.
  - destruct (refreshSnapshot_trace C g
                (final (forEach (visit (rangeActions C w (PlanFiles plan)))
                          (directive C g) w))) as [r ->].
    by repeat constructor.
Qed.

(** The run of a plan that is not nil captures a snapshot. *)
Lemma processActions_captures g plan w :
  ∃ r, EvCreateDirectorySnapshot r ∈ trace (processActions C g (Some plan) w).
Proof.
  change (trace (processActions C g (Some plan) w))
    with (trace (forEach (visit (rangeActions C w (PlanFiles plan)))
                   (directive C g) w)
          ++ trace (refreshSnapshot C g
                      (final (forEach (visit (rangeActions C w (PlanFiles plan)))
                                (directive C g) w)))).
  destruct (refreshSnapshot_trace C g
              (final (forEach (visit (rangeActions C w (PlanFiles plan)))
                        (directive C g) w))) as [r ->].
  exists r. rewrite elem_of_app. right. unfold refreshEvents.
  rewrite !elem_of_cons. auto.
Qed.

(** The run of a plan attempts each of its directives. *)
Lemma processActions_attempts_all g plan w path d :
  PlanFiles plan !! path = Some d →
  ∃ e, e ∈ trace (processActions C g (Some plan) w) ∧ attempts C g path d e = true.
Proof.
  intros Hin.
  destruct (processActions_isolation C g plan w path d Hin)
    as (wp & before & after & r & -> & _ & _).
  destruct (directive_attempts C g path d wp) as (e & He & Hatt).
  exists e. split; [|done]. rewrite !elem_of_app. auto.
Qed.

End ExecutorExtras.

(** ** The cycle *)

Section CycleExtras.
Context {Meta World Resp : Type}.
Variable C : Collaborators Meta World Resp.

Implicit Types (e : Event Meta Resp) (w : World) (g : Globals).
Implicit Types (s : DirectoryMetadata Meta).

#[local] Opaque postSnapshot processActions submitAndApply syncCycle main
  processSnapshots.

#[local] Ltac split_in H :=
  repeat first
    [ apply elem_of_app in H as [H|H]
    | apply elem_of_cons in H as [H|H]
    | apply elem_of_nil in H; destruct H
    | apply list_elem_of_fmap in H as (? & H & _) ].

(** What [main] runs once the queue is purged closes none of the
    handles of [main]. *)
Lemma syncCycle_keeps_handles g w :
  Forall (λ e, isHandleClose e = false) (trace (syncCycle C g w)).
Proof.
  assert (Hsub : ∀ s w', Forall (λ e, isHandleClose e = false)
                           (trace (submitAndApply C g s w'))).
  { intros s w'. rewrite submitAndApply_trace. apply Forall_app. split.
    - apply postSnapshot_keeps_handles.
    - destruct (value (postSnapshot C g s w')) as [plan|err];
        [|by repeat constructor].
      constructor; [done|]. apply processActions_keeps_handles. }
  destruct (syncCycle_trace C g w) as (ls & ex & oerr & c & w2 & ->).
  cbv zeta.
  repeat (apply Forall_app; split); try by repeat constructor.
  - destruct oerr; by repeat constructor.
  - destruct c as [cur|err]; [|by repeat constructor].
    constructor; [done|]. apply Forall_app. split; [|apply Hsub].
    destruct ex; repeat constructor. apply Forall_fmap. by apply Forall_true.
Qed.

(** Whatever fails, [main] closes what it has opened, last opened
    first, as the last thing it does, and nothing is closed before: the
    environment alone when the connection failed, the management, the
    connection and the environment when it was made. *)
Theorem handles_closed_in_reverse w :
  ∃ pre,
    Forall (λ e, isHandleClose e = false) pre
    ∧ (((∃ addr err, EvNewConnection addr (Some err) ∈ pre)
        ∧ trace (main C w) = pre ++ [EvClose HEnvironment])
       ∨ ((∃ addr, EvNewConnection addr None ∈ pre)
          ∧ trace (main C w)
            = pre ++ [EvClose HManagement; EvClose HConnection;
                      EvClose HEnvironment])).
Proof.
  destruct (main_trace C w) as (renv & g & w' & Hcases). simpl in Hcases.
  destruct Hcases as [[err ->]|[[err ->]|[[err ->]|[n ->]]]].
  - exists (EvLoadEnv renv
            :: (from_option (λ err, [EvLog (LogNoEnv err)]) [] renv
                ++ [EvLog LogStarting])
            ++ [EvNewConnection (address g) (Some err);
                EvLog LogConnectionFailed]).
    split; [|left; split].
    + destruct renv; by repeat constructor.
    + exists (address g), err. destruct renv; simpl; rewrite !elem_of_cons; auto 10.
    + simpl. f_equal. by rewrite <- !app_assoc.
  - exists (EvLoadEnv renv
            :: (from_option (λ err, [EvLog (LogNoEnv err)]) [] renv
                ++ [EvLog LogStarting])
            ++ [EvNewConnection (address g) None;
                EvDeclareQueue (queueName g) false (Some err);
                EvLog (LogDeclareFailed err)]).
    split; [|right; split].
    + destruct renv; by repeat constructor.
    + exists (address g). destruct renv; simpl; rewrite !elem_of_cons; auto 10.
    + simpl. f_equal. by rewrite <- !app_assoc.
  - exists (EvLoadEnv renv
            :: (from_option (λ err, [EvLog (LogNoEnv err)]) [] renv
                ++ [EvLog LogStarting])
            ++ [EvNewConnection (address g) None;
                EvDeclareQueue (queueName g) false None;
                EvPurgeQueue (queueName g) (Err err);
                EvLog (LogPurgeError err)]).
    split; [|right; split].
    + destruct renv; by repeat constructor.
    + exists (address g). destruct renv; simpl; rewrite !elem_of_cons; auto 10.
    + simpl. f_equal. by rewrite <- !app_assoc.
  - exists ((EvLoadEnv renv
             :: (from_option (λ err, [EvLog (LogNoEnv err)]) [] renv
                 ++ [EvLog LogStarting])
             ++ [EvNewConnection (address g) None;
                 EvDeclareQueue (queueName g) false None;
                 EvPurgeQueue (queueName g) (Ok n); EvLog (LogPurging n)])
            ++ trace (syncCycle C g w')).
    split; [|right; split].
    + apply Forall_app. split; [|apply syncCycle_keeps_handles].
      destruct renv; by repeat constructor.
    + exists (address g). rewrite elem_of_app. left.
      destruct renv; simpl; rewrite !elem_of_cons; auto 10.
    + simpl. f_equal. by rewrite <- !app_assoc.
Qed.

(** No event of [syncCycle] belongs to the bootstrap. *)
Lemma syncCycle_class g w e :
  e ∈ trace (syncCycle C g w) → isCycleWork e || isLogOrClose e = true.
Proof.
  intros He. assert (Hev := syncCycle_events C g w).
  rewrite Forall_forall in Hev. by apply Hev.
Qed.

(** A failed connection to the queue ends [main] at once: the failure
    is logged, the environment is closed, and nothing else happens; the
    queue is neither declared nor purged. *)
Theorem connection_failure_aborts w addr err :
  EvNewConnection addr (Some err) ∈ trace (main C w) →
  ∃ renv,
    trace (main C w)
    = EvLoadEnv renv
      :: from_option (λ err', [EvLog (LogNoEnv err')]) [] renv
      ++ [EvLog LogStarting; EvNewConnection addr (Some err);
          EvLog LogConnectionFailed; EvClose HEnvironment].
Proof.
  destruct (main_trace C w) as (renv & g & w' & Hcases). simpl in Hcases.
  destruct Hcases as [[err0 ->]|[[err0 ->]|[[err0 ->]|[n ->]]]]; intros Hin.
  - exists renv. f_equal. rewrite <- app_assoc. simpl.
    destruct renv; split_in Hin; try discriminate;
      by injection Hin as -> ->.
  - exfalso. destruct renv; split_in Hin; discriminate.
  - exfalso. destruct renv; split_in Hin; discriminate.
  - exfalso. remember (trace (syncCycle C g w')) as cyc eqn:Hcyc.
    destruct renv; split_in Hin; try discriminate;
      subst cyc; by apply syncCycle_class in Hin.
Qed.

(** An error of the environment file is logged and nothing more: the
    connection to the queue is attempted all the same. *)
Theorem env_file_error_not_fatal w err :
  EvLoadEnv (Some err) ∈ trace (main C w) →
  EvLog (LogNoEnv err) ∈ trace (main C w)
  ∧ ∃ addr r, EvNewConnection addr r ∈ trace (main C w).
Proof.
  destruct (main_trace C w) as (renv & g & w' & Hcases). simpl in Hcases.
  intros Hin.
  assert (renv = Some err) as ->.
  { destruct Hcases as [[err0 Htr]|[[err0 Htr]|[[err0 Htr]|[n Htr]]]];
      rewrite Htr in Hin; clear Htr;
      remember (trace (syncCycle C g w')) as cyc eqn:Hcyc;
      destruct renv; split_in Hin; try discriminate;
      try (by injection Hin as ->);
      subst cyc; by apply syncCycle_class in Hin. }
  destruct Hcases as [[err0 ->]|[[err0 ->]|[[err0 ->]|[n ->]]]]; simpl;
    (split; [rewrite !elem_of_cons; auto|]);
    exists (address g); eexists; rewrite !elem_of_cons; auto 10.
Qed.

(** Whatever the cycle does of its work proper (reading a snapshot,
    submitting, applying a directive, capturing), it does after the
    queue was declared, not auto-deleted, and that same queue was
    purged, both with success. *)
Theorem queue_ready_before_cycle w e :
  e ∈ trace (main C w) → isCycleWork e = true →
  ∃ name purgedAmount pre post,
    trace (main C w) = pre ++ e :: post
    ∧ EvDeclareQueue name false None ∈ pre
    ∧ EvPurgeQueue name (Ok purgedAmount) ∈ pre.
Proof.
  destruct (main_trace C w) as (renv & g & w' & Hcases). simpl in Hcases.
  destruct Hcases as [[err0 ->]|[[err0 ->]|[[err0 ->]|[n ->]]]];
    intros Hin Hwork.
  1-3: exfalso; destruct renv; split_in Hin; subst e; discriminate.
  remember (trace (syncCycle C g w')) as cyc eqn:Hcyc.
  assert (Hcycle : e ∈ cyc).
  { destruct renv; split_in Hin; try subst e; try discriminate; done. }
  apply list_elem_of_split in Hcycle as (c1 & c2 & ->).
  exists (queueName g), n,
    ((EvLoadEnv renv
      :: (from_option (λ err, [EvLog (LogNoEnv err)]) [] renv
          ++ [EvLog LogStarting])
      ++ [EvNewConnection (address g) None;
          EvDeclareQueue (queueName g) false None;
          EvPurgeQueue (queueName g) (Ok n); EvLog (LogPurging n)])
     ++ c1),
    (c2 ++ [EvClose HManagement; EvClose HConnection; EvClose HEnvironment]).
  split; [|split].
  - simpl. f_equal. by rewrite <- !app_assoc.
  - rewrite elem_of_app. left.
    destruct renv; simpl; rewrite !elem_of_cons; auto 10.
  - rewrite elem_of_app. left.
    destruct renv; simpl; rewrite !elem_of_cons; auto 10.
Qed.

(** An error of the read of the current snapshot ends the cycle: it is
    logged, nothing is submitted, no directive is attempted and no
    snapshot is captured. *)
Theorem local_metadata_failure_aborts w err :
  EvGetLocalMetadata (Err err) ∈ trace (main C w) →
  EvLog (LogError err) ∈ trace (main C w)
  ∧ Forall (λ e, isSubmission e = false ∧ isDirectiveCall e = false
                 ∧ isSnapshotCapture e = false)
           (trace (main C w)).
Proof.
  intros Hin.
  destruct (main_reaches_cycle C w _ Hin eq_refl)
    as (g & w' & pre & post & -> & Hcyc & Hpre & Hpost).
  destruct (syncCycle_trace C g w') as (ls & ex & oerr & c & w2 & Htr).
  rewrite Htr in Hcyc |- *. clear Htr.
  assert (Hno : ∀ s e, e ∈ trace (submitAndApply C g s w2) →
                       isSnapshotRead e = false).
  { intros s e He. assert (Hev := submitAndApply_events C g s w2).
    rewrite Forall_forall in Hev. specialize (Hev e He). by destruct e. }
  assert (c = Err err) as ->.
  { destruct c as [cur|err0].
    - exfalso. cbv zeta in Hcyc.
      remember (trace (submitAndApply C g _ w2)) as sub eqn:Hsub.
      destruct oerr, ex; split_in Hcyc; try discriminate;
        subst sub; by apply Hno in Hcyc.
    - destruct oerr; split_in Hcyc; try discriminate; by injection Hcyc as ->. }
  split.
  - rewrite !elem_of_app, !elem_of_cons. auto 15.
  - apply Forall_app; split; [|apply Forall_app; split].
    + eapply Forall_impl; [exact Hpre|]. intros e He. by destruct e.
    + destruct oerr; by repeat constructor.
    + eapply Forall_impl; [exact Hpost|]. intros e He. by destruct e.
Qed.

(** When the last snapshot exists, what [main] submits is the diff of
    the last and the current snapshot, and nothing else is submitted. *)
Theorem diff_submitted_when_last_exists w ls oerr cur :
  EvGetLastSnapshot (ls, true, oerr) ∈ trace (main C w) →
  EvGetLocalMetadata (Ok cur) ∈ trace (main C w) →
  (∃ client r,
     EvMarshal
       (MkPostSnapshotRequest client
          (processSnapshots ls cur (canonical_order _) (canonical_order _))) r
     ∈ trace (main C w))
  ∧ ∀ payload r, EvMarshal payload r ∈ trace (main C w) →
      FinalSnapshot payload
      = processSnapshots ls cur (canonical_order _) (canonical_order _).
Proof.
  intros Hlast Hcur.
  destruct (main_submission C w ls true oerr Hlast) as (_ & _ & Hsub).
  exact (Hsub cur Hcur).
Qed.

(** A plan in the decoded response is run: the events of its run are
    events of [submitAndApply], of [syncCycle] and of [main]. *)
Lemma submitAndApply_runs_plan g s w bodyBytes plan :
  EvUnmarshal bodyBytes (Ok (MkPostSnapshotResponse (Some plan)))
  ∈ trace (submitAndApply C g s w) →
  ∃ w', ∀ e, e ∈ trace (processActions C g (Some plan) w') →
             e ∈ trace (submitAndApply C g s w).
Proof.
  rewrite submitAndApply_trace. intros He.
  assert (Hdec := postSnapshot_decoded C g s w bodyBytes
                    (MkPostSnapshotResponse (Some plan))).
  apply elem_of_app in He as [He|He].
  - rewrite (Hdec He). exists (final (postSnapshot C g s w)).
    intros e Hin. rewrite elem_of_app, elem_of_cons. auto.
  - exfalso. destruct (value (postSnapshot C g s w)) as [plan'|err].
    + apply elem_of_cons in He as [?|He]; [discriminate|].
      assert (Hpa := processActions_events C g plan' (final (postSnapshot C g s w))).
      rewrite Forall_forall in Hpa. by specialize (Hpa _ He).
    + apply elem_of_cons in He as [?|He]; [discriminate|].
      by apply elem_of_nil in He.
Qed.

Lemma syncCycle_runs_plan g w bodyBytes plan :
  EvUnmarshal bodyBytes (Ok (MkPostSnapshotResponse (Some plan)))
  ∈ trace (syncCycle C g w) →
  ∃ w', ∀ e, e ∈ trace (processActions C g (Some plan) w') →
             e ∈ trace (syncCycle C g w).
Proof.
  destruct (syncCycle_trace C g w) as (ls & ex & oerr & c & w2 & ->).
  intros He.
  destruct c as [cur|err];
    [|exfalso; destruct oerr; split_in He; discriminate].
  cbv zeta in He |- *.
  remember (trace (submitAndApply C g _ w2)) as sub eqn:Hsub.
  assert (Hin : EvUnmarshal bodyBytes (Ok (MkPostSnapshotResponse (Some plan)))
                ∈ sub).
  { destruct oerr, ex; split_in He; try discriminate; done. }
  subst sub. apply submitAndApply_runs_plan in Hin as [w' Hrun].
  exists w'. intros e Hpa. apply Hrun in Hpa.
  rewrite !elem_of_app, !elem_of_cons, !elem_of_app. auto 15.
Qed.

(** A cycle in which the response of the server decodes to a plan runs
    the plan to its end: each directive of the plan is attempted, and a
    snapshot is captured, whatever the directives return. *)
Theorem plan_is_run_to_capture w bodyBytes plan :
  EvUnmarshal bodyBytes (Ok (MkPostSnapshotResponse (Some plan)))
  ∈ trace (main C w) →
  (∃ r, EvCreateDirectorySnapshot r ∈ trace (main C w))
  ∧ ∃ g, ∀ path d, PlanFiles plan !! path = Some d →
           ∃ e, e ∈ trace (main C w) ∧ attempts C g path d e = true.
Proof.
  intros He.
  destruct (main_reaches_cycle C w _ He eq_refl)
    as (g & w' & pre & post & -> & Hin & _ & _).
  apply syncCycle_runs_plan in Hin as [w'' Hrun].
  assert (Hmain : ∀ e, e ∈ trace (processActions C g (Some plan) w'') →
                       e ∈ pre ++ trace (syncCycle C g w') ++ post).
  { intros e Hpa. rewrite !elem_of_app. auto. }
  split.
  - destruct (processActions_captures C g plan w'') as [r Hr].
    exists r. by apply Hmain.
  - exists g. intros path d Hd.
    destruct (processActions_attempts_all C g plan w'' path d Hd) as (e & Hpa & Hatt).
    exists e. split; [by apply Hmain|done].
Qed.

End CycleExtras.

(** ** The further properties on the concrete inputs *)

Lemma diff_without_removal_witness :
  dom (Files Faults.older) ⊆ dom (Files Sample.current)
  ∧ processSnapshots Faults.older Sample.current
      (canonical_order _) (reverse_order _) = Sample.current.
Proof.
  assert (Hsub : dom (Files Faults.older) ⊆ dom (Files Sample.current)).
  { intros path [fm Hfm]%elem_of_dom. apply elem_of_dom.
    destruct (decide (path = "b.txt")) as [->|Hne].
    - by exists (Sample.present "b2").
    - exfalso. unfold Faults.older, Sample.snapshotOf in Hfm. simpl in Hfm.
      by rewrite lookup_insert_ne, lookup_empty in Hfm. }
  split; [exact Hsub|].
  exact (diff_without_removal Faults.older Sample.current _ _ Hsub).
Defined.

Lemma tombstone_keeps_content_witness :
  Files Sample.last !! "a.txt" = Some (Sample.present "a1")
  ∧ Files Sample.current !! "a.txt" = None
  ∧ Files (processSnapshots Sample.last Sample.current
             (canonical_order _) (reverse_order _)) !! "a.txt"
    = Some (MkFileMetadata StatusDeleted "a1").
Proof.
  assert (Hl : Files Sample.last !! "a.txt" = Some (Sample.present "a1"))
    by (vm_compute; reflexivity).
  assert (Hc : Files Sample.current !! "a.txt" = None) by (vm_compute; reflexivity).
  split; [exact Hl|]. split; [exact Hc|].
  exact (tombstone_keeps_content Sample.last Sample.current _ _ "a.txt" _ Hl Hc).
Defined.

Lemma diff_against_empty_witness :
  Files Sample.nothing = ∅
  ∧ Files (processSnapshots Sample.last Sample.nothing
             (reverse_order _) (canonical_order _))
    = setDeleted <$> Files Sample.last.
Proof.
  assert (Hempty : Files Sample.nothing = ∅) by reflexivity.
  split; [exact Hempty|].
  exact (diff_against_empty Sample.last Sample.nothing _ _ Hempty).
Defined.

Lemma submission_request_witness :
  let req := Header_Set (MkRequest "POST" "http://server/snapshot" "{}" [])
               "Content-Type" "application/json" in
  EvDo req (Ok "{}")
  ∈ trace (postSnapshot Sample.healthy Sample.globals Sample.current None)
  ∧ ∃ jsonData req0,
      json_Marshal Sample.healthy
        (MkPostSnapshotRequest (clientID Sample.globals) Sample.current)
      = Ok jsonData
      ∧ http_NewRequest Sample.healthy "POST"
          (serverURL Sample.globals +:+ "/snapshot") jsonData = Ok req0
      ∧ req = Header_Set req0 "Content-Type" "application/json"
      ∧ ∀ v, ("Content-Type", v) ∈ Header req ↔ v = "application/json".
Proof.
  intros req.
  assert (Hin : EvDo (Meta:=string) req (Ok "{}")
                ∈ trace (postSnapshot Sample.healthy Sample.globals
                           Sample.current None)) by in_trace.
  split; [exact Hin|].
  exact (submission_request Sample.healthy Sample.globals Sample.current None
           req (Ok "{}") Hin).
Defined.

Lemma empty_plan_still_captures_witness :
  PlanFiles Faults.emptyPlan = ∅
  ∧ ∃ r, trace (processActions Sample.healthy Sample.globals
                  (Some Faults.emptyPlan) None)
         = refreshEvents r.
Proof.
  assert (Hempty : PlanFiles Faults.emptyPlan = ∅) by reflexivity.
  split; [exact Hempty|].
  exact (empty_plan_still_captures Sample.healthy Sample.globals
           Faults.emptyPlan None Hempty).
Defined.

Lemma connection_failure_aborts_witness :
  EvNewConnection "amqp://queue" (Some "dial: connection refused")
  ∈ trace (main Faults.queueDown None)
  ∧ ∃ renv,
      trace (main Faults.queueDown None)
      = EvLoadEnv renv
        :: from_option (λ err', [EvLog (LogNoEnv err')]) [] renv
        ++ [EvLog LogStarting;
            EvNewConnection "amqp://queue" (Some "dial: connection refused");
            EvLog LogConnectionFailed; EvClose HEnvironment].
Proof.
  assert (Hin : EvNewConnection (Meta:=string) (Resp:=string) "amqp://queue"
                  (Some "dial: connection refused")
                ∈ trace (main Faults.queueDown None)) by in_trace.
  split; [exact Hin|].
  exact (connection_failure_aborts Faults.queueDown None _ _ Hin).
Defined.

Lemma env_file_error_not_fatal_witness :
  EvLoadEnv (Some "open .env: no such file")
  ∈ trace (main Faults.noEnvFile (Some Sample.last))
  ∧ EvLog (LogNoEnv "open .env: no such file")
    ∈ trace (main Faults.noEnvFile (Some Sample.last))
  ∧ ∃ addr r, EvNewConnection addr r ∈ trace (main Faults.noEnvFile (Some Sample.last)).
Proof.
  assert (Hin : EvLoadEnv (Meta:=string) (Resp:=string)
                  (Some "open .env: no such file")
                ∈ trace (main Faults.noEnvFile (Some Sample.last))) by in_trace.
  split; [exact Hin|].
  exact (env_file_error_not_fatal Faults.noEnvFile (Some Sample.last) _ Hin).
Defined.

Lemma queue_ready_before_cycle_witness :
  let e := EvGetLocalMetadata (Ok Sample.current) in
  e ∈ trace (main Sample.healthy None)
  ∧ isCycleWork e = true
  ∧ ∃ name purgedAmount pre post,
      trace (main Sample.healthy None) = pre ++ e :: post
      ∧ EvDeclareQueue name false None ∈ pre
      ∧ EvPurgeQueue name (Ok purgedAmount) ∈ pre.
Proof.
  intros e.
  assert (Hin : e ∈ trace (main Sample.healthy None)) by in_trace.
  assert (Hwork : isCycleWork e = true) by reflexivity.
  split; [exact Hin|]. split; [exact Hwork|].
  exact (queue_ready_before_cycle Sample.healthy None e Hin Hwork).
Defined.

Lemma local_metadata_failure_aborts_witness :
  EvGetLocalMetadata (Err "walk: permission denied")
  ∈ trace (main Faults.unreadableDirectory (Some Sample.last))
  ∧ EvLog (LogError "walk: permission denied")
    ∈ trace (main Faults.unreadableDirectory (Some Sample.last))
  ∧ Forall (λ e, isSubmission e = false ∧ isDirectiveCall e = false
                 ∧ isSnapshotCapture e = false)
      (trace (main Faults.unreadableDirectory (Some Sample.last))).
Proof.
  assert (Hin : EvGetLocalMetadata (Meta:=string) (Resp:=string)
                  (Err "walk: permission denied")
                ∈ trace (main Faults.unreadableDirectory (Some Sample.last)))
    by in_trace.
  split; [exact Hin|].
  exact (local_metadata_failure_aborts Faults.unreadableDirectory
           (Some Sample.last) _ Hin).
Defined.

Lemma diff_submitted_when_last_exists_witness :
  let tr := trace (main Sample.healthy (Some Sample.last)) in
  let diff := processSnapshots Sample.last Sample.current
                (canonical_order _) (canonical_order _) in
  EvGetLastSnapshot (Sample.last, true, None) ∈ tr
  ∧ EvGetLocalMetadata (Ok Sample.current) ∈ tr
  ∧ (∃ client r, EvMarshal (MkPostSnapshotRequest client diff) r ∈ tr)
  ∧ ∀ payload r, EvMarshal payload r ∈ tr → FinalSnapshot payload = diff.
Proof.
  intros tr diff.
  assert (Hlast : EvGetLastSnapshot (Sample.last, true, None) ∈ tr) by in_trace.
  assert (Hcur : EvGetLocalMetadata (Ok Sample.current) ∈ tr) by in_trace.
  split; [exact Hlast|]. split; [exact Hcur|].
  exact (diff_submitted_when_last_exists Sample.healthy (Some Sample.last)
           Sample.last None Sample.current Hlast Hcur).
Defined.

Lemma plan_is_run_to_capture_witness :
  let tr := trace (main Sample.healthy (Some Sample.last)) in
  EvUnmarshal "{}" (Ok (MkPostSnapshotResponse (Some Sample.plan))) ∈ tr
  ∧ (∃ r, EvCreateDirectorySnapshot r ∈ tr)
  ∧ ∃ g, ∀ path d, PlanFiles Sample.plan !! path = Some d →
           ∃ e, e ∈ tr ∧ attempts Sample.healthy g path d e = true.
Proof.
  intros tr.
  assert (Hin : EvUnmarshal "{}" (Ok (MkPostSnapshotResponse (Some Sample.plan)))
                ∈ tr) by in_trace.
  split; [exact Hin|].
  exact (plan_is_run_to_capture Sample.healthy (Some Sample.last) "{}"
           Sample.plan Hin).
Defined.
